(** * MilvusDatabase: a shallow embedding of memory_manager/vector_db/milvus.py

    The client keeps a local cache of collection handles in front of a remote
    Milvus engine.  The embedding is a state-and-exception monad over a
    [World] that holds the client's own fields ([self.collections], host,
    port), the state of the remote engine, the wall clock, the journal of
    the calls issued to pymilvus and the log.  The engine is not part of the
    repository: what it answers to a query or a search, which rows a delete
    expression selects and which calls it rejects are parameters of the
    development. *)

From stdpp Require Import gmap strings list pretty.
From Stdlib Require Import ZArith.

Local Open Scope Z_scope.
Local Open Scope string_scope.

(** ** Python values and pymilvus data *)

(** The members of pymilvus's [DataType] enumeration that a field can have. *)
Inductive DataType :=
  | BOOL | INT8 | INT16 | INT32 | INT64 | FLOAT | DOUBLE
  | VARCHAR | JSON | ARRAY | BINARY_VECTOR | FLOAT_VECTOR.

#[global] Instance DataType_eq_dec : EqDecision DataType.
Proof. solve_decision. Defined.

(** Values found in records and parameter dictionaries.  A float is carried
    as its binary64 bit pattern: the client never computes on one.  A vector
    is a list of floats, and a nested parameter dict such as
    [{"nlist": 256}] maps names to integers. *)
Inductive pyval :=
  | PNone
  | PBool (b : bool)
  | PInt (z : Z)
  | PFloat (bits : Z)
  | PStr (s : string)
  | PVector (v : list Z)
  | PParams (kv : list (string * Z)).

#[global] Instance pyval_eq_dec : EqDecision pyval.
Proof. solve_decision. Defined.

(** A Python [dict] with string keys: a record to insert, a returned entity,
    index or search parameters. *)
Abbreviation dict := (gmap string pyval).

(** Truth value of a dict: empty is false. *)
Definition dict_truthy (d : dict) : bool := negb (bool_decide (d = ∅)).

(** One entry of [schema["fields"]], the caller's description of a field.
    A key that the dict may lack is an [option]. *)
Record FieldDef := {
  fd_name : option string;
  fd_dtype : option DataType;
  fd_is_primary : option bool;
  fd_auto_id : option bool;
  fd_is_nullable : option bool;
  fd_max_length : option Z;
  fd_dim : option Z;
  fd_index_params : option dict;
}.

(** The [schema] argument: a dict with keys "fields" and "description". *)
Record SchemaDef := {
  sd_fields : option (list FieldDef);
  sd_description : option string;
}.

(** pymilvus's [FieldSchema]: [max_length] reads the attribute (None when it
    is not set), [dim] is [params.get("dim")]. *)
Record FieldSchema := {
  fs_name : string;
  fs_dtype : DataType;
  fs_max_length : option Z;
  fs_dim : option Z;
  fs_is_primary : bool;
  fs_auto_id : bool;
  fs_is_nullable : bool;
}.

Record CollectionSchema := {
  fields : list FieldSchema;
  description : string;
}.

Record Index := {
  index_field : string;
  index_params : dict;
}.

(** A collection as the engine holds it: rows become durable at flush. *)
Record RemoteCollection := {
  rc_schema : CollectionSchema;
  rc_indexes : list Index;
  rc_loaded : bool;
  rc_rows : list dict;
  rc_pending : list dict;
}.

(** A [Collection] object: a proxy that names its remote collection and
    holds the schema it read when it was built. *)
Record Collection := { col_name : string; col_schema : CollectionSchema }.

(** What [utility.load_state] reports; the client compares it with
    "Loaded". *)
Inductive LoadState := NotExist | NotLoad | Loading | Loaded.

#[global] Instance LoadState_eq_dec : EqDecision LoadState.
Proof. solve_decision. Defined.

(** The exceptions the client meets. *)
Inductive Exn :=
  | ValueError (msg : string)
  | KeyError (key : string)
  | IndexError (msg : string)
  | AttributeError (msg : string)
  | TypeError (msg : string)
  | ConnectionError (msg : string)
  | ConnectionNotExistException
  | MilvusException (msg : string).

Inductive Res (A : Type) :=
  | Ok (a : A)
  | Raise (e : Exn).
Arguments Ok {A} a.
Arguments Raise {A} e.

(** A hit as the engine returns it.  An attribute may be absent
    ([hasattr] false); the entity is converted with [to_dict()] when it has
    one and with [dict(...)] otherwise, and either conversion may raise. *)
Inductive Entity :=
  | EntityObject (to_dict : Res dict)
  | EntityMapping (as_dict : Res dict).

Record Hit := {
  hit_id : option pyval;
  hit_distance : option pyval;
  hit_entity : option Entity;
}.

(** ** The calls the client issues to pymilvus *)

Inductive Event :=
  | Connect (alias host : string) (port : Z)
  | Disconnect (alias : string)
  | ListCollections
  | HasCollection (collection_name : string)
  | GetLoadState (collection_name : string)
  | DropCollection (collection_name : string)
  | OpenCollection (collection_name : string)
  | NewCollection (collection_name : string) (schema : CollectionSchema)
  | ListIndexes (collection_name : string)
  | Load (collection_name : string)
  | Release (collection_name : string)
  | Flush (collection_name : string)
  | CreateIndex (collection_name field_name : string) (index_params : dict)
  | Insert (collection_name : string) (row : dict)
  | Delete (collection_name expr : string)
  | Query (collection_name expr : string) (output_fields : list string)
      (sort_by : option (string * string)) (limit : option Z)
  | Search (collection_name : string) (data : list (list Z))
      (anns_field : string) (param : dict) (limit : Z) (expr : option string).

(** A journal entry: the call and whether the connection was up when it was
    issued. *)
Record Call := { call_up : bool; call_event : Event }.

Inductive Level := DEBUG | INFO | WARNING | ERROR.

Record LogEntry := { log_level : Level; log_text : string }.

(** ** The world *)

Record World := {
  host : string;
  port : Z;
  collections : gmap string Collection;
  has_connection : bool;
  remote : gmap string RemoteCollection;
  clock : Z;
  calls : list Call;
  logs : list LogEntry;
}.

Definition connection_alias : string := "default".

Definition set_collections (f : gmap string Collection → gmap string Collection)
    (w : World) : World :=
  {| host := host w; port := port w; collections := f (collections w);
     has_connection := has_connection w; remote := remote w; clock := clock w;
     calls := calls w; logs := logs w |}.

Definition set_has_connection (b : bool) (w : World) : World :=
  {| host := host w; port := port w; collections := collections w;
     has_connection := b; remote := remote w; clock := clock w;
     calls := calls w; logs := logs w |}.

Definition set_remote (f : gmap string RemoteCollection → gmap string RemoteCollection)
    (w : World) : World :=
  {| host := host w; port := port w; collections := collections w;
     has_connection := has_connection w; remote := f (remote w); clock := clock w;
     calls := calls w; logs := logs w |}.

Definition add_call (e : Event) (w : World) : World :=
  {| host := host w; port := port w; collections := collections w;
     has_connection := has_connection w; remote := remote w; clock := clock w;
     calls := calls w ++ [{| call_up := has_connection w; call_event := e |}];
     logs := logs w |}.

Definition add_log (l : Level) (s : string) (w : World) : World :=
  {| host := host w; port := port w; collections := collections w;
     has_connection := has_connection w; remote := remote w; clock := clock w;
     calls := calls w; logs := logs w ++ [{| log_level := l; log_text := s |}] |}.

(** ** The monad: state that survives an exception *)

Definition M (A : Type) : Type := World → Res A * World.

Definition ret {A} (a : A) : M A := λ w, (Ok a, w).

Definition bind {A B} (m : M A) (f : A → M B) : M B := λ w,
  match m w with
  | (Ok a, w') => f a w'
  | (Raise e, w') => (Raise e, w')
  end.

Declare Scope M_scope.
Delimit Scope M_scope with M.
Bind Scope M_scope with M.
Notation "x ← y ; z" := (bind y (λ x : _, z))
  (at level 20, y at level 100, z at level 200, only parsing) : M_scope.
Notation "x ;; z" := (bind x (λ _, z))
  (at level 100, z at level 200, only parsing, right associativity) : M_scope.
Local Open Scope M_scope.

Definition raise {A} (e : Exn) : M A := λ w, (Raise e, w).

Definition get_world : M World := λ w, (Ok w, w).

Definition modify (f : World → World) : M unit := λ w, (Ok tt, f w).

(** [try: body except Exception as e: handler e]. *)
Definition try_except {A} (body : M A) (handler : Exn → M A) : M A := λ w,
  match body w with
  | (Ok a, w') => (Ok a, w')
  | (Raise e, w') => handler e w'
  end.

(** [for x in xs: body x]. *)
Fixpoint for_each {A} (xs : list A) (body : A → M unit) : M unit :=
  match xs with
  | [] => ret tt
  | x :: xs' => body x ;; for_each xs' body
  end.

Definition logger (l : Level) (s : string) : M unit := modify (add_log l s).

Definition str_exn (e : Exn) : string :=
  match e with
  | ValueError msg => msg
  | KeyError key => "'" ++ key ++ "'"
  | IndexError msg => msg
  | AttributeError msg => msg
  | TypeError msg => msg
  | ConnectionError msg => msg
  | ConnectionNotExistException => "should create connection first."
  | MilvusException msg => msg
  end.

(** [d[key]]: KeyError when the key is missing. *)
Definition subscript {A} (key : string) (o : option A) : M A :=
  match o with
  | Some a => ret a
  | None => raise (KeyError key)
  end.

(** [xs[i]]: IndexError when out of range. *)
Definition list_subscript {A} (xs : list A) (i : nat) : M A :=
  match xs !! i with
  | Some a => ret a
  | None => raise (IndexError "list index out of range")
  end.

Definition from_res {A} (r : Res A) : M A := λ w, (r, w).

Fixpoint map_M {A B} (f : A → M B) (xs : list A) : M (list B) :=
  match xs with
  | [] => ret []
  | x :: xs' => y ← f x; ys ← map_M f xs'; ret (y :: ys)
  end.

(** The normalised result of a search: [{"id", "distance", "entity"}]. *)
Record SearchHit := {
  sh_id : pyval;
  sh_distance : pyval;
  sh_entity : dict;
}.

Module MilvusDatabase.
Section Client.

(** ** The engine *)

(** The calls the engine rejects, given the journal so far. *)
Variable fault : list Call → Event → bool.
(** What the engine answers to a query and to a search. *)
Variable query_answer : RemoteCollection → Event → list dict.
Variable search_answer : RemoteCollection → Event → list (list Hit).
(** The rows a delete expression selects. *)
Variable delete_selects : string → dict → bool.
(** What reading the attribute [load_state] of a handle yields, for the
    collection the handle names.  The attribute is the library's: the read
    may raise, and what it yields need not be a [str]. *)
Variable load_state_attribute : RemoteCollection → Res pyval.

(** A call through the connection: it is journalled, fails without a
    connection and fails when the engine rejects it. *)
Definition pymilvus (e : Event) : M unit := λ w,
  let w' := add_call e w in
  if negb (has_connection w) then (Raise ConnectionNotExistException, w')
  else if fault (calls w) e then (Raise (MilvusException "rejected by the engine"), w')
  else (Ok tt, w').

Definition connections_has_connection (alias : string) : M bool :=
  w ← get_world; ret (has_connection w).

Definition connections_connect (alias host : string) (port : Z) : M unit := λ w,
  let e := Connect alias host port in
  let w' := add_call e w in
  if fault (calls w) e then (Raise (MilvusException "failed to connect"), w')
  else (Ok tt, set_has_connection true w').

Definition connections_disconnect (alias : string) : M unit :=
  pymilvus (Disconnect alias);; modify (set_has_connection false).

Definition the_collection (n : string) : M RemoteCollection :=
  w ← get_world;
  match remote w !! n with
  | Some c => ret c
  | None => raise (MilvusException ("collection not found: " ++ n))
  end.

Definition update_collection (n : string) (f : RemoteCollection → RemoteCollection)
    : M unit :=
  c ← the_collection n; modify (set_remote <[n := f c]>).

Definition utility_list_collections : M (list string) :=
  pymilvus ListCollections;;
  w ← get_world; ret (map_to_list (remote w)).*1.

Definition utility_has_collection (n : string) : M bool :=
  pymilvus (HasCollection n);;
  w ← get_world; ret (bool_decide (is_Some (remote w !! n))).

Definition utility_load_state (n : string) : M LoadState :=
  pymilvus (GetLoadState n);;
  w ← get_world;
  ret (match remote w !! n with
        | None => NotExist
        | Some c => if rc_loaded c then Loaded else NotLoad
        end).

Definition utility_drop_collection (n : string) : M unit :=
  pymilvus (DropCollection n);;
  modify (set_remote (base.delete n)).

(** [Collection(name)]: the collection must exist. *)
Definition Collection_open (n : string) : M Collection :=
  pymilvus (OpenCollection n);;
  c ← the_collection n;
  ret {| col_name := n; col_schema := rc_schema c |}.

(** [Collection(name=, schema=, using=)]: creates the collection when the
    name is free; an existing one is not touched. *)
Definition Collection_new (n : string) (schema : CollectionSchema) : M Collection :=
  pymilvus (NewCollection n schema);;
  w ← get_world;
  match remote w !! n with
  | Some c => ret {| col_name := n; col_schema := rc_schema c |}
  | None =>
      modify (set_remote <[n := {| rc_schema := schema; rc_indexes := [];
                                  rc_loaded := false; rc_rows := [];
                                  rc_pending := [] |}]>);;
      ret {| col_name := n; col_schema := schema |}
  end.

Definition Collection_indexes (col : Collection) : M (list Index) :=
  pymilvus (ListIndexes (col_name col));;
  c ← the_collection (col_name col); ret (rc_indexes c).

Definition set_loaded (b : bool) (c : RemoteCollection) : RemoteCollection :=
  {| rc_schema := rc_schema c; rc_indexes := rc_indexes c; rc_loaded := b;
     rc_rows := rc_rows c; rc_pending := rc_pending c |}.

Definition add_index (i : Index) (c : RemoteCollection) : RemoteCollection :=
  {| rc_schema := rc_schema c; rc_indexes := rc_indexes c ++ [i];
     rc_loaded := rc_loaded c; rc_rows := rc_rows c; rc_pending := rc_pending c |}.

Definition add_pending (row : dict) (c : RemoteCollection) : RemoteCollection :=
  {| rc_schema := rc_schema c; rc_indexes := rc_indexes c; rc_loaded := rc_loaded c;
     rc_rows := rc_rows c; rc_pending := rc_pending c ++ [row] |}.

Definition flushed (c : RemoteCollection) : RemoteCollection :=
  {| rc_schema := rc_schema c; rc_indexes := rc_indexes c; rc_loaded := rc_loaded c;
     rc_rows := rc_rows c ++ rc_pending c; rc_pending := [] |}.

Definition without (sel : dict → bool) (c : RemoteCollection) : RemoteCollection :=
  {| rc_schema := rc_schema c; rc_indexes := rc_indexes c; rc_loaded := rc_loaded c;
     rc_rows := List.filter (λ r, negb (sel r)) (rc_rows c);
     rc_pending := List.filter (λ r, negb (sel r)) (rc_pending c) |}.

Definition Collection_load (col : Collection) : M unit :=
  pymilvus (Load (col_name col));;
  update_collection (col_name col) (set_loaded true).

Definition Collection_release (col : Collection) : M unit :=
  pymilvus (Release (col_name col));;
  update_collection (col_name col) (set_loaded false).

Definition Collection_flush (col : Collection) : M unit :=
  pymilvus (Flush (col_name col));;
  update_collection (col_name col) flushed.

Definition Collection_create_index (col : Collection) (field_name : string)
    (index_params : dict) : M unit :=
  pymilvus (CreateIndex (col_name col) field_name index_params);;
  update_collection (col_name col)
    (add_index {| index_field := field_name; index_params := index_params |}).

Definition Collection_insert (col : Collection) (row : dict) : M unit :=
  pymilvus (Insert (col_name col) row);;
  update_collection (col_name col) (add_pending row).

Definition Collection_delete (col : Collection) (expr : string) : M unit :=
  pymilvus (Delete (col_name col) expr);;
  update_collection (col_name col) (without (delete_selects expr)).

(** Reads are served from memory: the collection must be loaded. *)
Definition the_loaded_collection (n : string) : M RemoteCollection :=
  c ← the_collection n;
  if rc_loaded c then ret c
  else raise (MilvusException ("collection not loaded: " ++ n)).

Definition Collection_query (col : Collection) (expr : string)
    (output_fields : list string) (sort_by : option (string * string))
    (limit : option Z) : M (list dict) :=
  let e := Query (col_name col) expr output_fields sort_by limit in
  pymilvus e;;
  c ← the_loaded_collection (col_name col);
  ret (query_answer c e).

Definition is_vector_field (anns_field : string) (f : FieldSchema) : bool :=
  bool_decide (fs_name f = anns_field) && bool_decide (fs_dtype f = FLOAT_VECTOR).

(** The engine searches a FLOAT_VECTOR field of the collection and rejects
    any other [anns_field]. *)
Definition Collection_search (col : Collection) (data : list (list Z))
    (anns_field : string) (param : dict) (limit : Z) (expr : option string)
    : M (list (list Hit)) :=
  let e := Search (col_name col) data anns_field param limit expr in
  pymilvus e;;
  c ← the_loaded_collection (col_name col);
  if existsb (is_vector_field anns_field) (fields (rc_schema c))
  then ret (search_answer c e)
  else raise (MilvusException ("no vector field named " ++ anns_field)).

(** ** The client *)

(** [self.collections[collection_name]]. *)
Definition cached (collection_name : string) : M Collection :=
  w ← get_world; subscript collection_name (collections w !! collection_name).

Definition list_collections : M (list string) :=
  try_except utility_list_collections
    (λ e, logger ERROR ("未能列出集合: " ++ str_exn e);; ret []).

Definition close : M unit :=
  try_except
    (b ← connections_has_connection connection_alias;
     if b then
       connections_disconnect connection_alias;;
       logger INFO "与 Milvus 断开连接."
     else ret tt)
    (λ e, logger ERROR ("与 Milvus 断开连接发生错误: " ++ str_exn e)).

(** The body of the refresh loop of [connect], for one collection name. *)
Definition connect_load (col_name : string) : M unit :=
  try_except
    (b ← utility_has_collection col_name;
     if negb b then logger DEBUG ("集合 '" ++ col_name ++ "' 不存在")
     else
       col ← Collection_open col_name;
       indexes ← Collection_indexes col;
       match indexes with
       | [] => logger WARNING ("集合 '" ++ col_name ++ "' 没有索引，跳过加载")
       | _ :: _ =>
           Collection_load col;;
           logger DEBUG ("集合 '" ++ col_name ++ "' 已成功加载到内存");;
           modify (set_collections <[col_name := col]>)
       end)
    (λ e, logger ERROR ("加载集合 '" ++ col_name ++ "' 失败: " ++ str_exn e)).

Definition connect_try : M unit :=
  w ← get_world;
  connections_connect connection_alias (host w) (port w);;
  logger INFO ("成功连接到 Milvus 数据库 (" ++ host w ++ ":" ++ pretty (port w) ++ ")");;
  existing_collections ← list_collections;
  modify (set_collections (λ _, ∅));;
  for_each existing_collections connect_load.

Definition connect : M unit :=
  try_except connect_try
    (λ e, logger ERROR ("连接 Milvus 数据库失败: " ++ str_exn e);; raise e).

Definition _ensure_connection : M unit :=
  b ← connections_has_connection connection_alias;
  if negb b then
    logger WARNING "与 Milvus 的连接已断开，正在尝试重新连接...";;
    connect
  else ret tt.

Definition _get_collection (collection_name : string) : M Collection :=
  w ← get_world;
  col ← match collections w !! collection_name with
        | Some col => ret col
        | None =>
            b ← utility_has_collection collection_name;
            if negb b then
              raise (ValueError ("Collection '" ++ collection_name ++ "' does not exist."))
            else
              col ← Collection_open collection_name;
              modify (set_collections <[collection_name := col]>);;
              ret col
        end;
  load_state ← utility_load_state collection_name;
  (if negb (bool_decide (load_state = Loaded)) then
     logger INFO ("Collection '" ++ collection_name ++ "' is not loaded. Loading now...");;
     Collection_load col
   else ret tt);;
  ret col.

(** The [FieldSchema] built for one entry of [schema["fields"]]. *)
Definition field_schema (field_definition : FieldDef) : M FieldSchema :=
  field_name ← subscript "name" (fd_name field_definition);
  field_type ← subscript "dtype" (fd_dtype field_definition);
  let is_primary := default false (fd_is_primary field_definition) in
  let auto_id := default false (fd_auto_id field_definition) in
  let is_nullable := default false (fd_is_nullable field_definition) in
  if bool_decide (field_type = VARCHAR) then
    max_length ← subscript "max_length" (fd_max_length field_definition);
    ret {| fs_name := field_name; fs_dtype := field_type;
            fs_max_length := Some max_length; fs_dim := None;
            fs_is_primary := is_primary; fs_auto_id := auto_id;
            fs_is_nullable := false |}
  else if bool_decide (field_type = FLOAT_VECTOR) then
    dim ← subscript "dim" (fd_dim field_definition);
    ret {| fs_name := field_name; fs_dtype := field_type;
            fs_max_length := None; fs_dim := Some dim;
            fs_is_primary := false; fs_auto_id := false;
            fs_is_nullable := false |}
  else
    ret {| fs_name := field_name; fs_dtype := field_type;
            fs_max_length := None; fs_dim := None;
            fs_is_primary := is_primary; fs_auto_id := auto_id;
            fs_is_nullable := is_nullable |}.

Definition default_index_params : dict :=
  {[ "index_type" := PStr "IVF_FLAT";
     "metric_type" := PStr "L2";
     "params" := PParams [("nlist", 256)] ]}.

(** The body of the index loop of [create_collection], for one field. *)
Definition create_field_index (collection_name : string)
    (field_definition : FieldDef) : M unit :=
  field_type ← subscript "dtype" (fd_dtype field_definition);
  if bool_decide (field_type = FLOAT_VECTOR) then
    let index_params := default ∅ (fd_index_params field_definition) in
    index_params ←
      (if negb (dict_truthy index_params) then
         logger WARNING "未提供索引参数，默认使用 IVF_FLAT 索引.";;
         ret default_index_params
       else ret index_params);
    field_name ← subscript "name" (fd_name field_definition);
    logger INFO ("正在为字段 '" ++ field_name ++ "' 创建索引...");;
    col ← cached collection_name;
    Collection_create_index col field_name index_params;;
    logger INFO ("字段 '" ++ field_name ++ "' 的索引创建成功.")
  else ret tt.

Definition create_collection_try (collection_name : string) (schema : SchemaDef)
    : M unit :=
  b ← utility_has_collection collection_name;
  if b then logger INFO ("集合 '" ++ collection_name ++ "' 已被创建.")
  else
    field_definitions ← subscript "fields" (sd_fields schema);
    fields ← map_M field_schema field_definitions;
    let collection_schema :=
      {| fields := fields;
         description := default "" (sd_description schema) |} in
    col ← Collection_new collection_name collection_schema;
    modify (set_collections <[collection_name := col]>);;
    logger INFO ("集合 '" ++ collection_name ++ "' 创建成功.");;
    field_definitions ← subscript "fields" (sd_fields schema);
    for_each field_definitions (create_field_index collection_name);;
    col ← cached collection_name;
    Collection_flush col.

Definition create_collection (collection_name : string) (schema : SchemaDef)
    : M unit :=
  try_except (create_collection_try collection_name schema)
    (λ e, logger ERROR ("创建集合失败: " ++ str_exn e)).

Definition stamp (current_time : Z) (item : dict) : dict :=
  match item !! "create_time" with
  | Some _ => item
  | None => <["create_time" := PInt current_time]> item
  end.

(** The items of [data] are stamped in place; the list is read again at
    [data[0]]. *)
Definition insert_try (collection_name : string) (data : list dict) : M unit :=
  _ensure_connection;;
  col ← _get_collection collection_name;
  w ← get_world;
  let current_time := clock w in
  let data := stamp current_time <$> data in
  row ← list_subscript data 0;
  Collection_insert col row;;
  Collection_flush col;;
  logger INFO ("插入数据成功：" ++ pretty (length data) ++ " .").

Definition insert (collection_name : string) (data : list dict) : M unit :=
  try_except (insert_try collection_name data)
    (λ e, logger ERROR ("插入数据失败: " ++ str_exn e)).

Definition query_try (collection_name filters : string) (output_fields : list string)
    : M (list dict) :=
  _ensure_connection;;
  w ← get_world;
  match collections w !! collection_name with
  | None => raise (ValueError ("集合 '" ++ collection_name ++ "' 不存在."))
  | Some collection =>
      Collection_load collection;;
      Collection_query collection filters output_fields None None
  end.

Definition query (collection_name filters : string) (output_fields : list string)
    : M (list dict) :=
  try_except (query_try collection_name filters output_fields)
    (λ e, logger ERROR ("条件查询失败: " ++ str_exn e);; ret []).

Definition search_params : dict :=
  {[ "metric_type" := PStr "L2"; "params" := PParams [("nprobe", 10)] ]}.

(** The body of the inner loop of [search]: the normalised hit, or nothing
    when the hit is skipped. *)
Definition search_hit (hit : Hit) : M (option SearchHit) :=
  match hit_id hit, hit_distance hit, hit_entity hit with
  | Some id, Some distance, Some entity =>
      try_except
        (entity_dict ← from_res (match entity with
                                 | EntityObject to_dict => to_dict
                                 | EntityMapping as_dict => as_dict
                                 end);
         ret (Some {| sh_id := id; sh_distance := distance;
                       sh_entity := entity_dict |}))
        (λ e, match e with
              | AttributeError _ =>
                  logger ERROR ("实体解析失败 - 缺少属性: " ++ str_exn e);; ret None
              | _ =>
                  logger ERROR ("处理搜索结果时发生意外错误: " ++ str_exn e);; ret None
              end)
  | _, _, _ => logger WARNING "无效的搜索结果对象类型";; ret None
  end.

Definition search_try (collection_name : string) (query_vector : list Z) (top_k : Z)
    (filters : option string) : M (list SearchHit) :=
  _ensure_connection;;
  w ← get_world;
  match collections w !! collection_name with
  | None => raise (ValueError ("集合 '" ++ collection_name ++ "' 不存在."))
  | Some collection =>
      Collection_load collection;;
      results ← Collection_search collection [query_vector] "embedding"
                  search_params top_k filters;
      result_list ← map_M (map_M search_hit) results;
      ret (omap id (concat result_list))
  end.

Definition search (collection_name : string) (query_vector : list Z) (top_k : Z)
    (filters : option string) : M (list SearchHit) :=
  try_except (search_try collection_name query_vector top_k filters)
    (λ e, logger ERROR ("相似度搜索失败: " ++ str_exn e);; ret []).

Definition get_latest_memory_try (collection_name : string) (limit : Z)
    : M (list dict) :=
  collection ← _get_collection collection_name;
  results ← Collection_query collection "" ["*"]
              (Some ("create_time", "desc")) (Some limit);
  ret (match results with [] => [] | _ :: _ => results end).

Definition get_latest_memory (collection_name : string) (limit : Z)
    : M (list dict) :=
  try_except (get_latest_memory_try collection_name limit)
    (λ e, match e with
          | ValueError _ => logger ERROR ("集合不存在: " ++ str_exn e);; ret []
          | IndexError _ =>
              logger WARNING ("集合 '" ++ collection_name ++ "' 中没有数据");; ret []
          | _ => logger ERROR ("获取最新的记忆失败: " ++ str_exn e);; ret []
          end).

Definition delete_try (collection_name expr : string) : M unit :=
  w ← get_world;
  match collections w !! collection_name with
  | None =>
      raise (ValueError ("Collection '" ++ collection_name ++ "' does not exist."))
  | Some collection =>
      Collection_delete collection expr;;
      logger INFO ("删除匹配记录: " ++ expr)
  end.

Definition delete (collection_name expr : string) : M unit :=
  try_except (delete_try collection_name expr)
    (λ e, logger ERROR ("删除失败: " ++ str_exn e)).

Definition drop_collection_try (collection_name : string) : M unit :=
  b ← utility_has_collection collection_name;
  if negb b then
    logger WARNING ("尝试删除不存在的集合 '" ++ collection_name ++ "'")
  else
    w ← get_world;
    match collections w !! collection_name with
    | Some col => Collection_release col
    | None => ret tt
    end;;
    utility_drop_collection collection_name;;
    w ← get_world;
    match collections w !! collection_name with
    | Some _ => modify (set_collections (base.delete collection_name))
    | None => ret tt
    end;;
    logger INFO ("成功删除集合 '" ++ collection_name ++ "' 及其下的所有数据.").

Definition drop_collection (collection_name : string) : M unit :=
  try_except (drop_collection_try collection_name)
    (λ e, logger ERROR ("删除集合时发生错误: " ++ str_exn e)).

(** [{field.name: field for field in collection.schema.fields}]: a later
    field of the same name replaces an earlier one. *)
Definition existing_fields_of (fs : list FieldSchema) : gmap string FieldSchema :=
  foldl (λ m field, <[fs_name field := field]> m) ∅ fs.

Definition check_field (collection_name : string) (field_definition : FieldDef)
    (existing_fields : gmap string FieldSchema) : M bool :=
  field_name ← subscript "name" (fd_name field_definition);
  field_dtype ← subscript "dtype" (fd_dtype field_definition);
  match existing_fields !! field_name with
  | None =>
      logger WARNING ("集合 '" ++ collection_name ++ "' 缺少字段 '" ++ field_name ++ "'.");;
      ret false
  | Some existing_field =>
      if negb (bool_decide (fs_dtype existing_field = field_dtype)) then
        logger WARNING ("集合 '" ++ collection_name ++ "' 字段 '" ++ field_name
                        ++ "' 的数据类型不匹配. ");;
        ret false
      else if bool_decide (field_dtype = VARCHAR) then
        let expected_max_length := fd_max_length field_definition in
        let actual_max_length := fs_max_length existing_field in
        if negb (bool_decide (expected_max_length = actual_max_length)) then
          logger WARNING ("集合 '" ++ collection_name ++ "' 字段 '" ++ field_name
                          ++ "' 的最大长度不匹配. ");;
          ret false
        else ret true
      else if bool_decide (field_dtype = FLOAT_VECTOR) then
        let expected_dim := fd_dim field_definition in
        let actual_dim := fs_dim existing_field in
        if negb (bool_decide (expected_dim = actual_dim)) then
          logger WARNING ("集合 '" ++ collection_name ++ "' 字段 '" ++ field_name
                          ++ "' 的维度不匹配. ");;
          ret false
        else ret true
      else ret true
  end.

(** [for field_definition in ...: if not check_field(...): return False]:
    true when the loop runs to its end. *)
Fixpoint check_fields (collection_name : string) (field_definitions : list FieldDef)
    (existing_fields : gmap string FieldSchema) : M bool :=
  match field_definitions with
  | [] => ret true
  | field_definition :: rest =>
      ok ← check_field collection_name field_definition existing_fields;
      if negb ok then ret false
      else check_fields collection_name rest existing_fields
  end.

Definition list_truthy {A} (xs : list A) : bool :=
  match xs with [] => false | _ :: _ => true end.

Definition check_collection_schema_consistency_try (collection_name : string)
    (expected_schema : SchemaDef) : M bool :=
  _ensure_connection;;
  b ← utility_has_collection collection_name;
  if negb b then
    logger WARNING ("集合 '" ++ collection_name ++ "' 不存在，无法检查一致性.");;
    ret false
  else
    collection ← Collection_open collection_name;
    let existing_fields := existing_fields_of (fields (col_schema collection)) in
    no_fields ←
      (if bool_decide (existing_fields = ∅) then
         field_definitions ← subscript "fields" (sd_fields expected_schema);
         ret (list_truthy field_definitions)
       else ret false);
    if (no_fields : bool) then
      logger WARNING ("集合 '" ++ collection_name
                      ++ "' 没有任何字段，无法与预期 Schema 匹配.");;
      ret false
    else
      field_definitions ← subscript "fields" (sd_fields expected_schema);
      if negb (list_truthy field_definitions) then
        logger WARNING ("预期 Schema 的字段定义为空，无法与集合 '"
                        ++ collection_name ++ "' 匹配.");;
        ret false
      else
        field_definitions ← subscript "fields" (sd_fields expected_schema);
        ok ← check_fields collection_name field_definitions existing_fields;
        if negb ok then ret false
        else
          field_definitions ← subscript "fields" (sd_fields expected_schema);
          names ← map_M (λ field, subscript "name" (fd_name field)) field_definitions;
          let expected_field_names : gset string := list_to_set names in
          let extra_fields := dom existing_fields ∖ expected_field_names in
          if negb (bool_decide (extra_fields = ∅)) then
            logger WARNING ("集合 '" ++ collection_name ++ "' 包含多余的字段.");;
            ret false
          else
            logger INFO ("集合 '" ++ collection_name ++ "' 的结构与预期一致.");;
            ret true.

Definition check_collection_schema_consistency (collection_name : string)
    (expected_schema : SchemaDef) : M bool :=
  try_except (check_collection_schema_consistency_try collection_name expected_schema)
    (λ e, match e with
          | ConnectionError _ =>
              logger ERROR ("连接数据库时发生错误: " ++ str_exn e);; ret false
          | KeyError _ =>
              logger ERROR ("Schema 定义中缺少关键字段: " ++ str_exn e);; ret false
          | _ =>
              logger ERROR ("检查集合结构一致性时发生未知错误: " ++ str_exn e);; ret false
          end).

(** [col.load_state]: an attribute read on the handle. *)
Definition Collection_load_state (col : Collection) : M pyval :=
  c ← the_collection (col_name col);
  from_res (load_state_attribute c).

(** The loop of [get_loaded_collections]; [loaded] is the list built so
    far. *)
Fixpoint get_loaded_collections_loop (names : list string) (loaded : list string)
    : M (list string) :=
  match names with
  | [] => ret loaded
  | name :: names' =>
      col ← Collection_open name;
      load_state ← Collection_load_state col;
      get_loaded_collections_loop names'
        (if bool_decide (load_state = PStr "Loaded") then loaded ++ [name]
         else loaded)
  end.

(** No try/except here: what [Collection(name)] and [col.load_state] raise
    propagates. *)
Definition get_loaded_collections : M (list string) :=
  names ← list_collections;
  get_loaded_collections_loop names [].

(** [with MilvusDatabase(host, port) as db]: connect on entry, close on
    exit. *)
Definition __enter__ : M unit := connect.

Definition __exit__ : M unit := close.

(** ** Vocabulary of the statements *)

(** The engine rejects no call. *)
Definition reliable : Prop := ∀ journal e, fault journal e = false.

(** Every cached handle names the collection it is cached under. *)
Definition coherent (w : World) : Prop :=
  ∀ n col, collections w !! n = Some col → col_name col = n.

(** Journal entries of calls issued over a live connection. *)
Definition issued (es : list Event) : list Call :=
  (λ e, {| call_up := true; call_event := e |}) <$> es.

(** [m] never raises. *)
Definition total {A} (m : M A) : Prop := ∀ w, ∃ a w', m w = (Ok a, w').

(** [m] maintains [I] (also when it raises), journals only calls that satisfy
    [P], and returns only values that satisfy [Q]. *)
Definition keeps {A} (I : World → Prop) (P : Call → Prop) (Q : A → Prop)
    (m : M A) : Prop :=
  ∀ w, I w →
    I (m w).2
    ∧ (∃ cs, calls (m w).2 = (calls w ++ cs)%list ∧ Forall P cs)
    ∧ (∀ a, (m w).1 = Ok a → Q a).

(** The predicate that holds of everything. *)
Definition any {A} : A → Prop := λ _, True.

(** The connection is up. *)
Definition up (w : World) : Prop := has_connection w = true.

(** A call issued while the connection was up. *)
Definition over_live_connection (c : Call) : Prop := call_up c = true.

(** A call that establishes the connection, or one issued while it was up. *)
Definition connect_or_live (c : Call) : Prop :=
  call_up c = true ∨ ∃ a h p, call_event c = Connect a h p.

(** A call that, when it is a search, searches the field "embedding". *)
Definition searches_embedding (c : Call) : Prop :=
  ∀ n data anns_field param limit expr,
    call_event c = Search n data anns_field param limit expr →
    anns_field = "embedding".

(** A field definition that has the keys [field_schema] reads. *)
Definition well_formed (fd : FieldDef) : bool :=
  match fd_name fd, fd_dtype fd with
  | Some _, Some VARCHAR => bool_decide (is_Some (fd_max_length fd))
  | Some _, Some FLOAT_VECTOR => bool_decide (is_Some (fd_dim fd))
  | Some _, Some _ => true
  | _, _ => false
  end.

(** The index parameters a vector field is to get: the caller's when it
    gave some, the default otherwise. *)
Definition provisioned_params (fd : FieldDef) : dict :=
  match fd_index_params fd with
  | Some params => if dict_truthy params then params else default_index_params
  | None => default_index_params
  end.

(** The index a field definition is to get: one for a FLOAT_VECTOR field. *)
Definition provisioned_index (fd : FieldDef) : option Index :=
  match fd_name fd, fd_dtype fd with
  | Some field_name, Some FLOAT_VECTOR =>
      Some {| index_field := field_name; index_params := provisioned_params fd |}
  | _, _ => None
  end.

(** The expected definition [e] describes the actual field [a]: same name,
    same dtype, same max_length when the field is a VARCHAR, same dim when it
    is a FLOAT_VECTOR. *)
Definition field_matches (e : FieldDef) (a : FieldSchema) : Prop :=
  fd_name e = Some (fs_name a)
  ∧ fd_dtype e = Some (fs_dtype a)
  ∧ (fs_dtype a = VARCHAR → fd_max_length e = fs_max_length a)
  ∧ (fs_dtype a = FLOAT_VECTOR → fd_dim e = fs_dim a).

(** The actual field set is exactly the expected one: every expected field
    is an actual field that it describes, and no actual field is outside the
    expected names. *)
Definition schema_exactly (actual : list FieldSchema) (expected : list FieldDef)
    : Prop :=
  (∀ e, e ∈ expected → ∃ a, a ∈ actual ∧ field_matches e a)
  ∧ (∀ a, a ∈ actual → ∃ e, e ∈ expected ∧ fd_name e = Some (fs_name a)).

(** [f'] differs from [f] in its dtype, in its max_length when [f] is a
    VARCHAR, or in its dim when [f] is a FLOAT_VECTOR. *)
Definition field_differs (f f' : FieldSchema) : Prop :=
  fs_dtype f' ≠ fs_dtype f
  ∨ (fs_dtype f = VARCHAR ∧ fs_max_length f' ≠ fs_max_length f)
  ∨ (fs_dtype f = FLOAT_VECTOR ∧ fs_dim f' ≠ fs_dim f).

(** One field added, one field removed, or one field changed. *)
Inductive altered : list FieldSchema → list FieldSchema → Prop :=
  | extra_field l1 f l2 : altered (l1 ++ l2) (l1 ++ f :: l2)
  | removed_field l1 f l2 : altered (l1 ++ f :: l2) (l1 ++ l2)
  | changed_field l1 f f' l2 :
      fs_name f' = fs_name f → field_differs f f' →
      altered (l1 ++ f :: l2) (l1 ++ f' :: l2).

(** An expected definition that passes [check_field] against the dict of the
    actual fields. *)
Definition matches_in (existing_fields : gmap string FieldSchema) (e : FieldDef)
    : Prop :=
  ∃ a, existing_fields !! fs_name a = Some a ∧ field_matches e a.

(** The schema of every remote collection. *)
Definition schemas (w : World) : gmap string CollectionSchema :=
  rc_schema <$> remote w.

(** The dict of the actual fields is keyed by the names of its fields. *)
Definition keyed_by_name (existing_fields : gmap string FieldSchema) : Prop :=
  ∀ k a, existing_fields !! k = Some a → fs_name a = k.

(** What the body of the schema check can produce: a verdict, or the
    KeyError of a definition that lacks a key. *)
Definition check_outcome (r : Res bool) : Prop :=
  r = Ok true ∨ r = Ok false ∨ ∃ k, r = Raise (KeyError k).



(** ** Vocabulary of the further properties *)

(** A collection that has an index. *)
Definition indexed (c : RemoteCollection) : bool :=
  match rc_indexes c with [] => false | _ :: _ => true end.

(** What the refresh of [connect] makes of a collection: loaded when it has
    an index. *)
Definition refreshed (c : RemoteCollection) : RemoteCollection :=
  if indexed c then set_loaded true c else c.

(** The handle that [Collection(name)] builds for a remote collection. *)
Definition handle_of (n : string) (c : RemoteCollection) : Collection :=
  {| col_name := n; col_schema := rc_schema c |}.

(** What a collection holds, its load state apart. *)
Definition contents (c : RemoteCollection)
    : CollectionSchema * list Index * list dict * list dict :=
  (rc_schema c, rc_indexes c, rc_rows c, rc_pending c).

Definition stored (w : World)
    : gmap string (CollectionSchema * list Index * list dict * list dict) :=
  contents <$> remote w.

(** A call that writes rows. *)
Definition writes_rows (c : Call) : Prop :=
  match call_event c with
  | Insert _ _ | Flush _ | Delete _ _ => True
  | _ => False
  end.

(** The hit that [search] returns for a hit of the engine: none when an
    attribute is missing or the entity does not convert. *)
Definition normalised (hit : Hit) : option SearchHit :=
  match hit_id hit, hit_distance hit, hit_entity hit with
  | Some id, Some distance, Some (EntityObject (Ok entity_dict))
  | Some id, Some distance, Some (EntityMapping (Ok entity_dict)) =>
      Some {| sh_id := id; sh_distance := distance; sh_entity := entity_dict |}
  | _, _, _ => None
  end.

(** A collection with more indexes. *)
Definition with_indexes (indexes : list Index) (c : RemoteCollection)
    : RemoteCollection :=
  {| rc_schema := rc_schema c; rc_indexes := rc_indexes c ++ indexes;
     rc_loaded := rc_loaded c; rc_rows := rc_rows c; rc_pending := rc_pending c |}.

(** The collection that [Collection(name=, schema=)] creates. *)
Definition created (schema : CollectionSchema) : RemoteCollection :=
  {| rc_schema := schema; rc_indexes := []; rc_loaded := false; rc_rows := [];
     rc_pending := [] |}.

(** A name whose remote collection reads as the [str] "Loaded" through the
    attribute [load_state]. *)
Definition reads_loaded (w : World) (n : string) : Prop :=
  ∃ c, remote w !! n = Some c ∧ load_state_attribute c = Ok (PStr "Loaded").

Definition reads_loaded_in (rem : gmap string RemoteCollection) (n : string)
    : bool :=
  match rem !! n with
  | Some c =>
      match load_state_attribute c with
      | Ok v => bool_decide (v = PStr "Loaded")
      | Raise _ => false
      end
  | None => false
  end.

Definition is_loaded (rem : gmap string RemoteCollection) (n : string) : bool :=
  match rem !! n with Some c => rc_loaded c | None => false end.

(** The cache entry of [n] once the refresh of [connect] has visited [n]:
    the handle of the remote collection when it has an index, and what the
    cache had otherwise. *)
Definition refreshed_entry (w : World) (n : string) : option Collection :=
  match remote w !! n with
  | Some c => if indexed c then Some (handle_of n c) else collections w !! n
  | None => collections w !! n
  end.

(** ** Example data *)

(** An engine that rejects nothing, answers a query with the durable rows,
    finds no hit, and whose delete expressions select every row. *)
Definition reliable_engine : list Call → Event → bool := λ _ _, false.
Definition durable_rows : RemoteCollection → Event → list dict := λ c _, rc_rows c.
Definition no_hits : RemoteCollection → Event → list (list Hit) := λ _ _, [].
Definition selects_all : string → dict → bool := λ _ _, true.

(** An attribute [load_state] that reads as the name of the load state. *)
Definition load_state_name : RemoteCollection → Res pyval :=
  λ c, Ok (PStr (if rc_loaded c then "Loaded" else "NotLoad")).


Definition field_def (field_name : string) (t : DataType) : FieldDef :=
  {| fd_name := Some field_name; fd_dtype := Some t; fd_is_primary := None;
     fd_auto_id := None; fd_is_nullable := None; fd_max_length := None;
     fd_dim := None; fd_index_params := None |}.

(** The schema {id: INT64 primary, embedding: FLOAT_VECTOR dim=4,
    text: VARCHAR max_length=256}, as the engine holds it and as a caller
    describes it. *)
Definition memories_schema : CollectionSchema :=
  {| fields :=
       [ {| fs_name := "id"; fs_dtype := INT64; fs_max_length := None;
            fs_dim := None; fs_is_primary := true; fs_auto_id := false;
            fs_is_nullable := false |};
         {| fs_name := "embedding"; fs_dtype := FLOAT_VECTOR; fs_max_length := None;
            fs_dim := Some 4; fs_is_primary := false; fs_auto_id := false;
            fs_is_nullable := false |};
         {| fs_name := "text"; fs_dtype := VARCHAR; fs_max_length := Some 256;
            fs_dim := None; fs_is_primary := false; fs_auto_id := false;
            fs_is_nullable := false |} ];
     description := "" |}.

Definition memories_definition : SchemaDef :=
  {| sd_fields :=
       Some [ {| fd_name := Some "id"; fd_dtype := Some INT64;
                 fd_is_primary := Some true; fd_auto_id := None;
                 fd_is_nullable := None; fd_max_length := None; fd_dim := None;
                 fd_index_params := None |};
              {| fd_name := Some "embedding"; fd_dtype := Some FLOAT_VECTOR;
                 fd_is_primary := None; fd_auto_id := None;
                 fd_is_nullable := None; fd_max_length := None; fd_dim := Some 4;
                 fd_index_params := None |};
              {| fd_name := Some "text"; fd_dtype := Some VARCHAR;
                 fd_is_primary := None; fd_auto_id := None;
                 fd_is_nullable := None; fd_max_length := Some 256; fd_dim := None;
                 fd_index_params := None |} ];
     sd_description := None |}.

(** A schema whose vector field is not named "embedding". *)
Definition notes_schema : CollectionSchema :=
  {| fields :=
       [ {| fs_name := "id"; fs_dtype := INT64; fs_max_length := None;
            fs_dim := None; fs_is_primary := true; fs_auto_id := false;
            fs_is_nullable := false |};
         {| fs_name := "vector"; fs_dtype := FLOAT_VECTOR; fs_max_length := None;
            fs_dim := Some 4; fs_is_primary := false; fs_auto_id := false;
            fs_is_nullable := false |} ];
     description := "" |}.

(** A definition whose VARCHAR field lacks "max_length". *)
Definition malformed_definition : SchemaDef :=
  {| sd_fields := Some [ field_def "id" INT64; field_def "text" VARCHAR ];
     sd_description := None |}.

Definition hello : dict :=
  {[ "id" := PInt 1; "embedding" := PVector [0; 0; 0; 1]; "text" := PStr "hello" ]}.

Definition bye : dict :=
  {[ "id" := PInt 2; "embedding" := PVector [0; 0; 1; 0]; "text" := PStr "bye" ]}.

Definition collection_of (schema : CollectionSchema) (indexed : string)
    (rows : list dict) : RemoteCollection :=
  {| rc_schema := schema;
     rc_indexes := [ {| index_field := indexed;
                        index_params := default_index_params |} ];
     rc_loaded := true; rc_rows := rows; rc_pending := [] |}.

(** A connected client: "memories" and "notes" exist, are loaded and are
    cached; "blank" exists and is loaded, with the schema of "memories" and
    no row, and is not cached; the cache holds no other name. *)
Definition online : World :=
  {| host := "localhost"; port := 19530;
     collections :=
       {[ "memories" := {| col_name := "memories"; col_schema := memories_schema |};
          "notes" := {| col_name := "notes"; col_schema := notes_schema |} ]};
     has_connection := true;
     remote :=
       {[ "memories" := collection_of memories_schema "embedding" [];
          "notes" := collection_of notes_schema "vector" [];
          "blank" := collection_of memories_schema "embedding" [] ]};
     clock := 1700000000; calls := []; logs := [] |}.

(** The same client after the connection has dropped, with one durable row. *)
Definition offline : World :=
  {| host := "localhost"; port := 19530;
     collections :=
       {[ "memories" := {| col_name := "memories"; col_schema := memories_schema |} ]};
     has_connection := false;
     remote := {[ "memories" := collection_of memories_schema "embedding" [hello] ]};
     clock := 1700000000; calls := []; logs := [] |}.

(** A connected client whose cached handle has outlived its collection: the
    engine knows no collection any more. *)
Definition stale : World :=
  {| host := "localhost"; port := 19530;
     collections :=
       {[ "memories" := {| col_name := "memories"; col_schema := memories_schema |} ]};
     has_connection := true; remote := ∅;
     clock := 1700000000; calls := []; logs := [] |}.


(** * Properties *)

Local Open Scope list_scope.

(** ** Running the monad *)

Lemma bind_run {A B} (m : M A) (f : A → M B) w a w1 :
  m w = (Ok a, w1) → bind m f w = f a w1.
Proof. intros H. unfold bind. by rewrite H. Qed.

Lemma bind_raise {A B} (m : M A) (f : A → M B) w e w1 :
  m w = (Raise e, w1) → bind m f w = (Raise e, w1).
Proof. intros H. unfold bind. by rewrite H. Qed.

Lemma bind_assoc {A B C} (m : M A) (f : A → M B) (g : B → M C) w :
  bind (bind m f) g w = bind m (λ a, bind (f a) g) w.
Proof. unfold bind. by destruct (m w) as [[a|e] w1]. Qed.

Lemma try_except_run {A} (m : M A) h w a w1 :
  m w = (Ok a, w1) → try_except m h w = (Ok a, w1).
Proof. intros H. unfold try_except. by rewrite H. Qed.

Lemma try_except_raise {A} (m : M A) h w e w1 :
  m w = (Raise e, w1) → try_except m h w = h e w1.
Proof. intros H. unfold try_except. by rewrite H. Qed.

(** [step lem] runs the first action of a sequence with the lemma [lem]. *)
Ltac side := simpl; first [eassumption | reflexivity | done].
Ltac step lem :=
  rewrite ?bind_assoc; erewrite bind_run by (eapply lem; side); cbv beta.

(** ** The engine's calls over a live connection to a reliable engine *)

Lemma pymilvus_run e w :
  reliable → has_connection w = true →
  pymilvus e w = (Ok tt, add_call e w).
Proof. intros Hr Hc. unfold pymilvus. by rewrite Hc, Hr. Qed.

Lemma the_collection_run n w c :
  remote w !! n = Some c → the_collection n w = (Ok c, w).
Proof. intros H. cbv [the_collection bind get_world ret]. by rewrite H. Qed.

Lemma update_collection_run n f w c :
  remote w !! n = Some c →
  update_collection n f w = (Ok tt, set_remote <[n := f c]> w).
Proof. intros H. unfold update_collection. by step the_collection_run. Qed.

Lemma utility_has_collection_run n w :
  reliable → has_connection w = true →
  utility_has_collection n w
  = (Ok (bool_decide (is_Some (remote w !! n))), add_call (HasCollection n) w).
Proof. intros Hr Hc. unfold utility_has_collection. by step pymilvus_run. Qed.

Lemma utility_load_state_run n w :
  reliable → has_connection w = true →
  utility_load_state n w
  = (Ok (match remote w !! n with
         | None => NotExist
         | Some c => if rc_loaded c then Loaded else NotLoad
         end), add_call (GetLoadState n) w).
Proof. intros Hr Hc. unfold utility_load_state. by step pymilvus_run. Qed.

Lemma utility_drop_collection_run n w :
  reliable → has_connection w = true →
  utility_drop_collection n w
  = (Ok tt, set_remote (base.delete n) (add_call (DropCollection n) w)).
Proof. intros Hr Hc. unfold utility_drop_collection. by step pymilvus_run. Qed.

Lemma Collection_open_run n w c :
  reliable → has_connection w = true → remote w !! n = Some c →
  Collection_open n w
  = (Ok {| col_name := n; col_schema := rc_schema c |}, add_call (OpenCollection n) w).
Proof.
  intros Hr Hc Hn. unfold Collection_open.
  step pymilvus_run. by step the_collection_run.
Qed.

Lemma Collection_load_run col w c :
  reliable → has_connection w = true → remote w !! col_name col = Some c →
  Collection_load col w
  = (Ok tt, set_remote <[col_name col := set_loaded true c]>
              (add_call (Load (col_name col)) w)).
Proof.
  intros Hr Hc Hn. unfold Collection_load.
  step pymilvus_run. by apply update_collection_run.
Qed.

Lemma Collection_release_run col w c :
  reliable → has_connection w = true → remote w !! col_name col = Some c →
  Collection_release col w
  = (Ok tt, set_remote <[col_name col := set_loaded false c]>
              (add_call (Release (col_name col)) w)).
Proof.
  intros Hr Hc Hn. unfold Collection_release.
  step pymilvus_run. by apply update_collection_run.
Qed.

Lemma Collection_flush_run col w c :
  reliable → has_connection w = true → remote w !! col_name col = Some c →
  Collection_flush col w
  = (Ok tt, set_remote <[col_name col := flushed c]>
              (add_call (Flush (col_name col)) w)).
Proof.
  intros Hr Hc Hn. unfold Collection_flush.
  step pymilvus_run. by apply update_collection_run.
Qed.

Lemma Collection_insert_run col row w c :
  reliable → has_connection w = true → remote w !! col_name col = Some c →
  Collection_insert col row w
  = (Ok tt, set_remote <[col_name col := add_pending row c]>
              (add_call (Insert (col_name col) row) w)).
Proof.
  intros Hr Hc Hn. unfold Collection_insert.
  step pymilvus_run. by apply update_collection_run.
Qed.

Lemma Collection_create_index_run col field_name params w c :
  reliable → has_connection w = true → remote w !! col_name col = Some c →
  Collection_create_index col field_name params w
  = (Ok tt, set_remote
              <[col_name col :=
                  add_index {| index_field := field_name; index_params := params |} c]>
              (add_call (CreateIndex (col_name col) field_name params) w)).
Proof.
  intros Hr Hc Hn. unfold Collection_create_index.
  step pymilvus_run. by apply update_collection_run.
Qed.

(** ** Operations that never raise *)

Lemma total_ret {A} (a : A) : total (ret a).
Proof. intros w. by eexists _, _. Qed.

Lemma total_logger l s : total (logger l s).
Proof. intros w. by eexists _, _. Qed.

Lemma total_bind {A B} (m : M A) (f : A → M B) :
  total m → (∀ a, total (f a)) → total (bind m f).
Proof.
  intros Hm Hf w. destruct (Hm w) as (a & w1 & E).
  rewrite (bind_run _ _ _ _ _ E). apply Hf.
Qed.

Lemma total_try_except {A} (m : M A) h :
  (∀ e, total (h e)) → total (try_except m h).
Proof.
  intros Hh w. unfold try_except.
  destruct (m w) as [[a|e] w1]; [by eexists _, _ | apply Hh].
Qed.

Lemma total_for_each {A} (xs : list A) body :
  (∀ x, total (body x)) → total (for_each xs body).
Proof.
  intros Hb. induction xs as [|x xs IH]; simpl.
  - apply total_ret.
  - apply total_bind; [apply Hb | intros _; apply IH].
Qed.

(** ** Invariants and the journal *)

Section Keeps.
Context (I : World → Prop) (P : Call → Prop).

Lemma keeps_weaken {A} (Q Q' : A → Prop) (m : M A) :
  keeps I P Q m → (∀ a, Q a → Q' a) → keeps I P Q' m.
Proof.
  intros Hm HQ w Hw. destruct (Hm w Hw) as (HI & Hcs & Hq). eauto.
Qed.

Lemma keeps_ret {A} (Q : A → Prop) (a : A) : Q a → keeps I P Q (ret a).
Proof.
  intros Ha w Hw. simpl. split_and!; [done | |by intros ? [= <-]].
  exists []. by rewrite app_nil_r.
Qed.

Lemma keeps_raise {A} (Q : A → Prop) e : keeps I P Q (raise e).
Proof.
  intros w Hw. simpl. split_and!; [done | |done].
  exists []. by rewrite app_nil_r.
Qed.

Lemma keeps_get_world : keeps I P any get_world.
Proof.
  intros w Hw. simpl. split_and!; [done | |done].
  exists []. by rewrite app_nil_r.
Qed.

Lemma keeps_from_res {A} (r : Res A) : keeps I P any (from_res r).
Proof.
  intros w Hw. simpl. split_and!; [done | |done].
  exists []. by rewrite app_nil_r.
Qed.

Lemma keeps_bind {A B} (Q : A → Prop) (R : B → Prop) (m : M A) (f : A → M B) :
  keeps I P Q m → (∀ a, Q a → keeps I P R (f a)) → keeps I P R (bind m f).
Proof.
  intros Hm Hf w Hw. destruct (Hm w Hw) as (HI & (cs & Hcs & HP) & Hq).
  unfold bind. destruct (m w) as [[a|e] w1]; simpl in *.
  - destruct (Hf a (Hq a eq_refl) w1 HI) as (HI' & (cs' & Hcs' & HP') & Hq').
    split_and!; [done | |done].
    exists (cs ++ cs'). rewrite Hcs', Hcs, (assoc_L (++)).
    split; [done|]. by apply Forall_app.
  - split_and!; [done | by exists cs | done].
Qed.

Lemma keeps_try_except {A} (Q : A → Prop) (m : M A) h :
  keeps I P Q m → (∀ e, keeps I P Q (h e)) → keeps I P Q (try_except m h).
Proof.
  intros Hm Hh w Hw. destruct (Hm w Hw) as (HI & (cs & Hcs & HP) & Hq).
  unfold try_except. destruct (m w) as [[a|e] w1]; simpl in *.
  - split_and!; [done | by exists cs | done].
  - destruct (Hh e w1 HI) as (HI' & (cs' & Hcs' & HP') & Hq').
    split_and!; [done | |done].
    exists (cs ++ cs'). rewrite Hcs', Hcs, (assoc_L (++)).
    split; [done|]. by apply Forall_app.
Qed.

Lemma keeps_for_each {A} (xs : list A) body :
  (∀ x, keeps I P any (body x)) → keeps I P any (for_each xs body).
Proof.
  intros Hb. induction xs as [|x xs IH]; simpl.
  - by apply keeps_ret.
  - eapply keeps_bind; [apply Hb | intros _ _; apply IH].
Qed.

Lemma keeps_map_M {A B} (f : A → M B) (xs : list A) :
  (∀ x, keeps I P any (f x)) → keeps I P any (map_M f xs).
Proof.
  intros Hf. induction xs as [|x xs IH]; simpl.
  - by apply keeps_ret.
  - eapply keeps_bind; [apply Hf | intros y _].
    eapply keeps_bind; [apply IH | intros ys _]. by apply keeps_ret.
Qed.

Lemma keeps_modify f :
  (∀ w, I w → I (f w)) → (∀ w, calls (f w) = calls w) →
  keeps I P any (modify f).
Proof.
  intros HI Hc w Hw. simpl. split_and!; [by apply HI | |done].
  exists []. by rewrite app_nil_r.
Qed.

Lemma keeps_subscript {A} key (o : option A) : keeps I P any (subscript key o).
Proof. destruct o; [by apply keeps_ret | apply keeps_raise]. Qed.

Lemma keeps_list_subscript {A} (xs : list A) i :
  keeps I P any (list_subscript xs i).
Proof.
  unfold list_subscript. destruct (xs !! i); [by apply keeps_ret | apply keeps_raise].
Qed.

Lemma keeps_pymilvus e :
  (∀ w, I w → I (add_call e w)) →
  (∀ w, I w → P {| call_up := has_connection w; call_event := e |}) →
  keeps I P any (pymilvus e).
Proof.
  intros HI HP w Hw. unfold pymilvus.
  assert (∃ cs, calls (add_call e w) = calls w ++ cs ∧ Forall P cs) as Hcs.
  { eexists. split; [reflexivity|]. repeat constructor. by apply HP. }
  destruct (negb (has_connection w)); [|destruct (fault (calls w) e)]; simpl;
    (split_and!; [by apply HI | done | done]).
Qed.

Lemma keeps_connections_connect a h p :
  (∀ w, I w → I (add_call (Connect a h p) w)) →
  (∀ w, I w → I (set_has_connection true w)) →
  (∀ w, I w → P {| call_up := has_connection w; call_event := Connect a h p |}) →
  keeps I P any (connections_connect a h p).
Proof.
  intros HI HI' HP w Hw. unfold connections_connect.
  assert (∃ cs, calls (add_call (Connect a h p) w) = calls w ++ cs ∧ Forall P cs)
    as Hcs.
  { eexists. split; [reflexivity|]. repeat constructor. by apply HP. }
  destruct (fault (calls w) (Connect a h p)); simpl;
    (split_and!; [auto | done | done]).
Qed.

Lemma keeps_logger l s :
  (∀ w, I w → I (add_log l s w)) → keeps I P any (logger l s).
Proof. intros HI. by apply keeps_modify. Qed.

Lemma keeps_the_collection n : keeps I P any (the_collection n).
Proof.
  unfold the_collection. eapply keeps_bind; [apply keeps_get_world|].
  intros w _. destruct (remote w !! n); [by apply keeps_ret | apply keeps_raise].
Qed.

Lemma keeps_update_collection n f :
  (∀ w c, I w → remote w !! n = Some c → I (set_remote <[n := f c]> w)) →
  keeps I P any (update_collection n f).
Proof.
  intros HI w Hw. cbv [update_collection the_collection bind get_world ret modify raise].
  destruct (remote w !! n) as [c|] eqn:Hn; simpl.
  - split_and!; [by apply HI | |done]. exists []. by rewrite app_nil_r.
  - split_and!; [done | |done]. exists []. by rewrite app_nil_r.
Qed.

Lemma keeps_Collection_open n :
  (∀ w, I w → I (add_call (OpenCollection n) w)) →
  (∀ w, I w → P {| call_up := has_connection w; call_event := OpenCollection n |}) →
  keeps I P (λ col, col_name col = n) (Collection_open n).
Proof.
  intros HI HP. unfold Collection_open.
  eapply keeps_bind; [by apply keeps_pymilvus | intros _ _].
  eapply keeps_bind; [apply keeps_the_collection | intros c _].
  by apply keeps_ret.
Qed.

End Keeps.

Create HintDb milvus.

#[local] Hint Unfold list_collections close connect_load connect_try connect
  _ensure_connection _get_collection cached
  connections_has_connection connections_disconnect
  utility_list_collections utility_has_collection utility_load_state
  utility_drop_collection Collection_new Collection_indexes Collection_load
  Collection_release Collection_flush Collection_create_index Collection_insert
  Collection_delete the_loaded_collection Collection_query Collection_search
  search_hit check_field : milvus.

(** Structural decomposition of a [keeps] goal; [leaf] closes what is left
    at the calls and the state updates. *)
Ltac keeps_with leaf :=
  autounfold with milvus;
  repeat lazymatch goal with
  | |- keeps _ _ _ (bind (Collection_open ?n) _) =>
      eapply (keeps_bind _ _ (λ col, col_name col = n));
      [apply keeps_Collection_open | intros ? ?]
  | |- keeps _ _ _ (bind _ _) => eapply (keeps_bind _ _ any); [|intros ? _]
  | |- keeps _ _ _ (try_except _ _) => apply keeps_try_except; [|intros ?]
  | |- keeps _ _ _ (for_each _ _) => apply keeps_for_each; intros ?
  | |- keeps _ _ _ (map_M _ _) => apply keeps_map_M; intros ?
  | |- keeps _ _ _ (ret _) => by apply keeps_ret
  | |- keeps _ _ _ (raise _) => apply keeps_raise
  | |- keeps _ _ _ get_world => apply keeps_get_world
  | |- keeps _ _ _ (from_res _) => apply keeps_from_res
  | |- keeps _ _ _ (subscript _ _) => apply keeps_subscript
  | |- keeps _ _ _ (list_subscript _ _) => apply keeps_list_subscript
  | |- keeps _ _ _ (the_collection _) => apply keeps_the_collection
  | |- keeps _ _ _ (logger _ _) => apply keeps_logger
  | |- keeps _ _ _ (modify _) => apply keeps_modify
  | |- keeps _ _ _ (pymilvus _) => apply keeps_pymilvus
  | |- keeps _ _ _ (connections_connect _ _ _) => apply keeps_connections_connect
  | |- keeps _ _ _ (update_collection _ _) => apply keeps_update_collection
  | |- keeps _ _ _ (match ?x with _ => _ end) => destruct x
  | |- keeps _ _ _ (let _ := _ in _) => cbv zeta
  | |- _ => leaf
  end.

Lemma up_get_collection n :
  keeps up over_live_connection any (_get_collection n).
Proof. unfold up, over_live_connection. keeps_with ltac:(by intros). Qed.

Lemma up_connect_load n : keeps up over_live_connection any (connect_load n).
Proof. unfold up, over_live_connection. keeps_with ltac:(by intros). Qed.

Lemma up_list_collections : keeps up over_live_connection any list_collections.
Proof. unfold up, over_live_connection. keeps_with ltac:(by intros). Qed.

(** The refresh of [connect] and the handle resolution keep the cache
    coherent and no schema changes. *)
Ltac coherent_leaf :=
  unfold coherent, any; intros; simpl in *;
  repeat match goal with
  | H : <[_:=_]> _ !! _ = Some _ |- _ =>
      apply lookup_insert_Some in H as [[<- <-]|[_ H]]
  | H : ∅ !! _ = Some _ |- _ => by rewrite lookup_empty in H
  end; eauto.

Lemma coherent_ensure_connection :
  keeps coherent any any _ensure_connection.
Proof. keeps_with coherent_leaf. Qed.

Lemma coherent_Collection_load col :
  keeps coherent any any (Collection_load col).
Proof. keeps_with coherent_leaf. Qed.

Lemma schemas_set_loaded w n c b :
  remote w !! n = Some c →
  schemas (set_remote <[n := set_loaded b c]> w) = schemas w.
Proof.
  intros Hn. unfold schemas. simpl. rewrite fmap_insert. simpl.
  apply insert_id. by rewrite lookup_fmap, Hn.
Qed.

Ltac schemas_leaf :=
  unfold any; intros; simpl in *;
  try match goal with
  | |- schemas (set_remote <[_ := set_loaded _ _]> _) = _ =>
      rewrite schemas_set_loaded by done
  end; eauto.

Lemma schemas_ensure_connection S :
  keeps (λ w, schemas w = S) any any _ensure_connection.
Proof. keeps_with schemas_leaf. Qed.

Lemma schemas_Collection_load S col :
  keeps (λ w, schemas w = S) any any (Collection_load col).
Proof. keeps_with schemas_leaf. Qed.

(** ** Establishing the connection *)

Ltac pure := rewrite ?bind_assoc; erewrite bind_run by reflexivity; cbv beta.

Lemma total_list_collections : total list_collections.
Proof.
  apply total_try_except. intros e.
  apply total_bind; [apply total_logger | intros _; apply total_ret].
Qed.

Lemma total_connect_load n : total (connect_load n).
Proof. apply total_try_except. intros e. apply total_logger. Qed.

(** [connect] fails exactly when the connection cannot be established, and
    then re-raises after logging; the refresh of the cache never fails. *)
Lemma connect_spec w :
  let e := Connect connection_alias (host w) (port w) in
  if fault (calls w) e then
    ∃ w', connect w = (Raise (MilvusException "failed to connect"), w')
      ∧ calls w' = calls w ++ [{| call_up := has_connection w; call_event := e |}]
      ∧ has_connection w' = has_connection w
      ∧ collections w' = collections w ∧ remote w' = remote w
      ∧ logs w' = logs w ++ [{| log_level := ERROR;
                                log_text := "连接 Milvus 数据库失败: failed to connect" |}]
  else
    ∃ w' cs, connect w = (Ok tt, w') ∧ up w'
      ∧ calls w' = calls w ++ {| call_up := has_connection w; call_event := e |} :: cs
      ∧ Forall over_live_connection cs.
Proof.
  intros e. unfold connect, connect_try, try_except. pure.
  destruct (fault (calls w) e) eqn:Hf.
  - eexists. split.
    { erewrite bind_raise; [reflexivity|].
      unfold connections_connect. fold e. by rewrite Hf. }
    done.
  - match goal with |- context [bind (connections_connect _ _ _) ?f] =>
      assert (total (f tt)) as Ht;
      [|assert (keeps up over_live_connection any (f tt)) as Hk] end.
    { apply total_bind; [apply total_logger | intros _].
      apply total_bind; [apply total_list_collections | intros xs].
      apply total_bind; [by intros ?; eexists _, _ | intros _].
      apply total_for_each, total_connect_load. }
    { unfold up, over_live_connection. keeps_with ltac:(by intros). }
    set (w1 := set_has_connection true (add_call e w)).
    destruct (Ht w1) as ([] & w2 & E).
    destruct (Hk w1 eq_refl) as (Hup & (cs & Hcs & HP) & _).
    rewrite E in Hup, Hcs. simpl in Hup, Hcs.
    exists w2, cs. split.
    { erewrite bind_run; [by rewrite E|].
      unfold connections_connect. fold e. by rewrite Hf. }
    split_and!; [done | | done].
    rewrite Hcs. simpl. by rewrite <- (assoc_L (++)).
Qed.

Lemma over_live_connect_or_live cs :
  Forall over_live_connection cs → Forall connect_or_live cs.
Proof. intros H. eapply Forall_impl; [exact H|]. intros c Hc. by left. Qed.

(** [_ensure_connection] does nothing over a live connection and otherwise
    connects; when it returns the connection is up. *)
Lemma ensure_connection_spec w :
  ∃ r w1, _ensure_connection w = (r, w1)
    ∧ (r = Ok tt → up w1)
    ∧ (reliable → r = Ok tt)
    ∧ (up w → r = Ok tt ∧ w1 = w)
    ∧ ∃ cs, calls w1 = calls w ++ cs ∧ Forall connect_or_live cs.
Proof.
  unfold _ensure_connection, connections_has_connection. pure. pure.
  destruct (has_connection w) eqn:Hc; simpl.
  - eexists _, _. split; [reflexivity|]. split_and!; try done.
    exists []. by rewrite app_nil_r.
  - pure. pose proof (connect_spec (add_log WARNING
      "与 Milvus 的连接已断开，正在尝试重新连接..." w)) as Hs.
    simpl in Hs.
    destruct (fault (calls w) (Connect connection_alias (host w) (port w))) eqn:Hf.
    + destruct Hs as (w' & E & Hcs & _). rewrite E.
      eexists _, _. split; [reflexivity|]. split_and!; try done.
      * intros Hr. by rewrite Hr in Hf.
      * unfold up. by rewrite Hc.
      * eexists. split; [exact Hcs|].
        constructor; [right; by eexists _, _, _ | constructor].
    + destruct Hs as (w' & cs & E & Hup & Hcs & HP). rewrite E.
      eexists _, _. split; [reflexivity|]. split_and!; try done.
      * unfold up. by rewrite Hc.
      * eexists. split; [exact Hcs|]. constructor.
        -- right. by eexists _, _, _.
        -- by apply over_live_connect_or_live.
Qed.

(** What follows [_ensure_connection] is issued over a live connection. *)
Lemma guarded_journal {A} (rest : M A) w :
  keeps up over_live_connection any rest →
  ∃ cs, calls (bind _ensure_connection (λ _, rest) w).2 = calls w ++ cs
        ∧ Forall connect_or_live cs.
Proof.
  intros Hk. destruct (ensure_connection_spec w)
    as (r & w1 & E & Hup & _ & _ & cs & Hcs & HP).
  destruct r as [[]|e].
  - rewrite (bind_run _ _ _ _ _ E).
    destruct (Hk w1 (Hup eq_refl)) as (_ & (cs' & Hcs' & HP') & _).
    exists (cs ++ cs'). rewrite Hcs', Hcs, (assoc_L (++)). split; [done|].
    apply Forall_app. split; [done | by apply over_live_connect_or_live].
  - rewrite (bind_raise _ _ _ _ _ E). by exists cs.
Qed.

Lemma try_except_journal {A} (m : M A) h w :
  (∀ e w, calls (h e w).2 = calls w) →
  calls (try_except m h w).2 = calls (m w).2.
Proof.
  intros Hh. unfold try_except. destruct (m w) as [[a|e] w1]; [done | apply Hh].
Qed.

(** The operations that start with [_ensure_connection] issue every call
    over a live connection. *)
Lemma insert_journal n data w :
  ∃ cs, calls (insert n data w).2 = calls w ++ cs ∧ Forall connect_or_live cs.
Proof.
  unfold insert. rewrite try_except_journal by done.
  apply guarded_journal.
  unfold up, over_live_connection. keeps_with ltac:(by intros).
Qed.

Lemma query_journal n filters output_fields w :
  ∃ cs, calls (query n filters output_fields w).2 = calls w ++ cs
        ∧ Forall connect_or_live cs.
Proof.
  unfold query. rewrite try_except_journal by done.
  apply guarded_journal.
  unfold up, over_live_connection. keeps_with ltac:(by intros).
Qed.

Lemma search_journal n query_vector top_k filters w :
  ∃ cs, calls (search n query_vector top_k filters w).2 = calls w ++ cs
        ∧ Forall connect_or_live cs.
Proof.
  unfold search. rewrite try_except_journal by done.
  apply guarded_journal.
  unfold up, over_live_connection. keeps_with ltac:(by intros).
Qed.

Lemma up_check_fields n field_definitions existing_fields :
  keeps up over_live_connection any
    (check_fields n field_definitions existing_fields).
Proof.
  unfold up, over_live_connection.
  induction field_definitions as [|fd rest IH]; simpl;
    keeps_with ltac:(first [by intros | exact IH]).
Qed.

Lemma check_journal n expected_schema w :
  ∃ cs, calls (check_collection_schema_consistency n expected_schema w).2
        = calls w ++ cs ∧ Forall connect_or_live cs.
Proof.
  unfold check_collection_schema_consistency.
  rewrite try_except_journal by (by intros []).
  apply guarded_journal.
  keeps_with ltac:(first [by intros | apply up_check_fields]).
Qed.

(** ** Handle resolution *)

(** A name that is neither cached nor known to the engine never resolves,
    whatever the state of the connection. *)
Lemma get_collection_missing_fails w n :
  collections w !! n = None → remote w !! n = None →
  ∃ e w', _get_collection n w = (Raise e, w').
Proof.
  intros Hc Hn.
  cbv [_get_collection bind get_world utility_has_collection pymilvus ret raise].
  rewrite Hc.
  destruct (negb (has_connection w)); [by eexists _, _|].
  destruct (fault (calls w) (HasCollection n)); [by eexists _, _|].
  simpl. rewrite Hn. simpl. by eexists _, _.
Qed.

(** C3: over a live connection to a reliable engine, resolving a name that is
    neither cached nor present remotely raises the ValueError that says the
    collection does not exist; resolving a name that is present remotely
    returns a handle that is cached under the name afterwards, queries the
    remote load state again (after the existence check and the construction
    of the handle when the cache missed) and issues a load exactly when the
    engine reports the collection as not loaded, so that the collection is
    loaded on return. *)
Theorem get_collection_resolves w n :
  reliable → up w → coherent w →
  match remote w !! n with
  | None =>
      collections w !! n = None →
      ∃ w', _get_collection n w
            = (Raise (ValueError ("Collection '" +:+ n +:+ "' does not exist.")), w')
        ∧ collections w' = collections w ∧ remote w' = remote w
  | Some c =>
      ∃ col w', _get_collection n w = (Ok col, w')
        ∧ collections w' !! n = Some col ∧ col_name col = n
        ∧ calls w' = calls w ++ issued
            ((if collections w !! n is Some _ then []
              else [HasCollection n; OpenCollection n])
             ++ [GetLoadState n] ++ (if rc_loaded c then [] else [Load n]))
        ∧ rc_loaded <$> remote w' !! n = Some true
  end.
Proof.
  intros Hr Hup Hco. unfold up in Hup. unfold _get_collection.
  destruct (remote w !! n) as [c|] eqn:Hn.
  - destruct (collections w !! n) as [col|] eqn:Hcol.
    + assert (col_name col = n) as Hcn by eauto. subst n.
      destruct (rc_loaded c) eqn:Hl.
      * eexists _, _. split.
        { pure. rewrite Hcol. pure.
          step utility_load_state_run. rewrite Hn, Hl. simpl. pure. reflexivity. }
        simpl. rewrite Hcol, Hn, Hup. simpl. by rewrite Hl.
      * eexists _, _. split.
        { pure. rewrite Hcol. pure.
          step utility_load_state_run. rewrite Hn, Hl. simpl.
          pure. step Collection_load_run. reflexivity. }
        simpl. rewrite Hcol, lookup_insert_eq, Hup, <- (assoc_L (++)). done.
    + destruct (rc_loaded c) eqn:Hl.
      * eexists _, _. split.
        { pure. rewrite Hcol.
          step utility_has_collection_run. rewrite Hn. simpl.
          step Collection_open_run. pure. pure.
          step utility_load_state_run. simpl. rewrite Hn, Hl. simpl.
          pure. reflexivity. }
        simpl. rewrite lookup_insert_eq, Hn, Hup, <- !(assoc_L (++)). simpl.
        by rewrite Hl.
      * eexists _, _. split.
        { pure. rewrite Hcol.
          step utility_has_collection_run. rewrite Hn. simpl.
          step Collection_open_run. pure. pure.
          step utility_load_state_run. simpl. rewrite Hn, Hl. simpl.
          pure. step Collection_load_run. reflexivity. }
        simpl. rewrite !lookup_insert_eq, Hup, <- !(assoc_L (++)). done.
  - intros Hcol. eexists. split.
    { pure. rewrite Hcol.
      step utility_has_collection_run. rewrite Hn. simpl. reflexivity. }
    done.
Qed.

(** ** Creation and removal of collections *)

(** C6: [create_collection] is idempotent by name: when the name already
    exists remotely, a call with any schema returns normally, issues the
    existence check and no other call, so nothing is created, and leaves the
    remote collections, with the schema the first call gave them, and the
    cache as they are. *)
Theorem create_collection_idempotent w n schema :
  is_Some (remote w !! n) →
  ∃ w', create_collection n schema w = (Ok tt, w')
    ∧ calls w' = calls w ++ [{| call_up := has_connection w;
                                call_event := HasCollection n |}]
    ∧ remote w' = remote w ∧ collections w' = collections w.
Proof.
  intros Hn.
  cbv [create_collection try_except create_collection_try bind
    utility_has_collection pymilvus get_world ret logger modify].
  destruct (has_connection w) eqn:Hc; simpl.
  - destruct (fault (calls w) (HasCollection n)); simpl.
    + eexists; split; [reflexivity|]. simpl. by rewrite Hc.
    + rewrite bool_decide_eq_true_2 by done. simpl.
      eexists; split; [reflexivity|]. simpl. by rewrite Hc.
  - eexists; split; [reflexivity|]. simpl. by rewrite Hc.
Qed.

(** C8: over a live connection to a reliable engine, [drop_collection] on a
    name the engine does not know logs a warning and changes neither the
    cache nor the remote collections; on an existing collection it issues the
    existence check, then the release of the cached handle when there is one,
    then the remote drop, in this order, and afterwards the name is neither
    in the cache nor in the engine. *)
Theorem drop_collection_releases_then_drops w n :
  reliable → up w → coherent w →
  ∃ w', drop_collection n w = (Ok tt, w') ∧
    has_connection w' = true ∧
    match remote w !! n with
    | None =>
        calls w' = calls w ++ issued [HasCollection n] ∧
        collections w' = collections w ∧ remote w' = remote w ∧
        logs w' = logs w ++ [{| log_level := WARNING;
                                log_text := "尝试删除不存在的集合 '" +:+ n +:+ "'" |}]
    | Some _ =>
        calls w' = calls w ++ issued ([HasCollection n]
          ++ (if collections w !! n is Some _ then [Release n] else [])
          ++ [DropCollection n]) ∧
        collections w' = base.delete n (collections w) ∧
        remote w' = base.delete n (remote w) ∧
        collections w' !! n = None ∧ remote w' !! n = None
    end.
Proof.
  intros Hr Hc Hco. unfold up in Hc. unfold drop_collection, drop_collection_try.
  destruct (remote w !! n) as [c|] eqn:Hn.
  - destruct (collections w !! n) as [col|] eqn:Hcol.
    + assert (col_name col = n) as Hcn by eauto. subst n.
      eexists. split.
      { apply try_except_run.
        step utility_has_collection_run. rewrite Hn. simpl.
        pure. simpl. rewrite Hcol.
        step Collection_release_run.
        step utility_drop_collection_run. pure. simpl. rewrite Hcol.
        pure. reflexivity. }
      simpl. rewrite <- !(assoc_L (++)). simpl.
      rewrite delete_insert_eq, !lookup_delete_eq, Hc. done.
    + eexists. split.
      { apply try_except_run.
        step utility_has_collection_run. rewrite Hn. simpl.
        pure. simpl. rewrite Hcol.
        pure. step utility_drop_collection_run. pure. simpl. rewrite Hcol.
        pure. reflexivity. }
      simpl. rewrite <- !(assoc_L (++)). simpl.
      rewrite !lookup_delete_eq, Hc.
      rewrite (delete_id (collections w)) by done. done.
  - eexists. split.
    { apply try_except_run.
      step utility_has_collection_run. rewrite Hn. simpl. reflexivity. }
    simpl. rewrite Hc. done.
Qed.

(** ** Failures at the boundary of the operations *)

Lemma total_create_collection n schema : total (create_collection n schema).
Proof. apply total_try_except. intros e. apply total_logger. Qed.

Lemma total_insert n data : total (insert n data).
Proof. apply total_try_except. intros e. apply total_logger. Qed.

Lemma total_query n filters output_fields : total (query n filters output_fields).
Proof. apply total_try_except. intros e w. by eexists _, _. Qed.

Lemma total_search n query_vector top_k filters :
  total (search n query_vector top_k filters).
Proof. apply total_try_except. intros e w. by eexists _, _. Qed.

Lemma total_get_latest_memory n limit : total (get_latest_memory n limit).
Proof. apply total_try_except. intros e w. destruct e; by eexists _, _. Qed.

Lemma total_delete n expr : total (delete n expr).
Proof. apply total_try_except. intros e. apply total_logger. Qed.

Lemma total_drop_collection n : total (drop_collection n).
Proof. apply total_try_except. intros e. apply total_logger. Qed.

Lemma total_check_collection_schema_consistency n expected_schema :
  total (check_collection_schema_consistency n expected_schema).
Proof. apply total_try_except. intros e w. destruct e; by eexists _, _. Qed.

(** C5: [query] and [search] never raise.  Each returns what its body
    returns when the body returns, and the empty list when the body raises,
    whatever the exception; in particular each returns the empty list when
    the collection is not in the cache once the connection has been
    ensured. *)
Theorem query_search_never_raise w n :
  (∀ filters output_fields,
     (query n filters output_fields w).1
     = match (query_try n filters output_fields w).1 with
       | Ok results => Ok results
       | Raise _ => Ok []
       end
     ∧ match collections (_ensure_connection w).2 !! n with
       | None => (query n filters output_fields w).1 = Ok []
       | Some _ => True
       end)
  ∧ (∀ query_vector top_k filters,
     (search n query_vector top_k filters w).1
     = match (search_try n query_vector top_k filters w).1 with
       | Ok result_list => Ok result_list
       | Raise _ => Ok []
       end
     ∧ match collections (_ensure_connection w).2 !! n with
       | None => (search n query_vector top_k filters w).1 = Ok []
       | Some _ => True
       end).
Proof.
  split.
  - intros filters output_fields. split.
    + unfold query, try_except.
      by destruct (query_try n filters output_fields w) as [[r|e] w1].
    + destruct (collections (_ensure_connection w).2 !! n) eqn:Hcol; [done|].
      unfold query, try_except, query_try.
      destruct (_ensure_connection w) as [[[]|e] w1] eqn:E; simpl in Hcol.
      * rewrite (bind_run _ _ _ _ _ E). pure. by rewrite Hcol.
      * by rewrite (bind_raise _ _ _ _ _ E).
  - intros query_vector top_k filters. split.
    + unfold search, try_except.
      by destruct (search_try n query_vector top_k filters w) as [[r|e] w1].
    + destruct (collections (_ensure_connection w).2 !! n) eqn:Hcol; [done|].
      unfold search, try_except, search_try.
      destruct (_ensure_connection w) as [[[]|e] w1] eqn:E; simpl in Hcol.
      * rewrite (bind_run _ _ _ _ _ E). pure. by rewrite Hcol.
      * by rewrite (bind_raise _ _ _ _ _ E).
Qed.


(** ** What [insert] sends *)

(** Of a non-empty batch only the first record reaches the engine: on a
    cached and loaded collection, one insert call is issued and the flush
    makes one more row durable, whatever the rest of the batch is. *)
Lemma insert_first_record_only w n col c row rest :
  reliable → up w →
  collections w !! n = Some col → col_name col = n →
  remote w !! n = Some c → rc_loaded c = true →
  ∃ w', insert n (row :: rest) w = (Ok tt, w')
    ∧ calls w' = calls w
        ++ issued [GetLoadState n; Insert n (stamp (clock w) row); Flush n]
    ∧ rc_rows <$> remote w' !! n
      = Some (rc_rows c ++ rc_pending c ++ [stamp (clock w) row]).
Proof.
  intros Hr Hup Hcol Hcn Hn Hl. subst n.
  unfold insert, try_except, insert_try.
  destruct (ensure_connection_spec w) as (r & w1 & E & _ & _ & Hw & _).
  destruct (Hw Hup) as [-> ->]. rewrite (bind_run _ _ _ _ _ E).
  unfold _get_collection. pure. rewrite Hcol. pure.
  step utility_load_state_run. rewrite Hn, Hl. simpl. repeat pure. simpl.
  step Collection_insert_run.
  erewrite bind_run
    by (eapply Collection_flush_run; [done | done | simpl; apply lookup_insert_eq]).
  cbv beta. eexists. split; [reflexivity|]. simpl.
  unfold up in Hup. rewrite Hup, <- !(assoc_L (++)), !lookup_insert_eq. done.
Qed.

(** ** The field that [search] searches *)

Lemma search_try_journal n query_vector top_k filters :
  keeps (λ _, True) searches_embedding any
    (search_try n query_vector top_k filters).
Proof.
  unfold search_try.
  keeps_with ltac:(first [done | intros; unfold searches_embedding; simpl; congruence]).
Qed.

(** A collection without a FLOAT_VECTOR field named "embedding". *)
Lemma search_try_fails w n query_vector top_k filters :
  coherent w →
  (∀ c, remote w !! n = Some c →
        existsb (is_vector_field "embedding") (fields (rc_schema c)) = false) →
  ∃ e w', search_try n query_vector top_k filters w = (Raise e, w').
Proof.
  intros Hco Hno. unfold search_try.
  destruct (coherent_ensure_connection w Hco) as (Hco1 & _ & _).
  destruct (schemas_ensure_connection (schemas w) w eq_refl) as (Hs1 & _ & _).
  destruct (_ensure_connection w) as [[[]|e] w1] eqn:E; simpl in Hco1, Hs1;
    [|rewrite (bind_raise _ _ _ _ _ E); by eexists _, _].
  rewrite (bind_run _ _ _ _ _ E). pure.
  destruct (collections w1 !! n) as [col|] eqn:Hcol; [|by eexists _, _].
  assert (col_name col = n) as Hcn by eauto.
  destruct (schemas_Collection_load (schemas w) col w1 Hs1) as (Hs2 & _ & _).
  destruct (Collection_load col w1) as [[[]|e] w2] eqn:E2; simpl in Hs2;
    [|rewrite (bind_raise _ _ _ _ _ E2); by eexists _, _].
  rewrite (bind_run _ _ _ _ _ E2).
  assert (∃ e w', Collection_search col [query_vector] "embedding" search_params
                    top_k filters w2 = (Raise e, w')) as (e & w3 & E3).
  { cbv [Collection_search the_loaded_collection the_collection bind get_world
         pymilvus ret raise].
    destruct (negb (has_connection w2)); [by eexists _, _|].
    destruct (fault _ _); [by eexists _, _|]. simpl. rewrite Hcn.
    destruct (remote w2 !! n) as [c2|] eqn:Hn2; [|by eexists _, _].
    destruct (rc_loaded c2); [|by eexists _, _].
    assert (schemas w2 !! n = schemas w !! n) as Hsn by (by rewrite Hs2).
    unfold schemas in Hsn. rewrite !lookup_fmap, Hn2 in Hsn.
    destruct (remote w !! n) as [c|] eqn:Hn; [|done].
    injection Hsn as Hsn. rewrite Hsn, (Hno c eq_refl). by eexists _, _. }
  rewrite (bind_raise _ _ _ _ _ E3). by eexists _, _.
Qed.

(** ** Index provisioning *)

Lemma field_schema_run fd :
  well_formed fd = true → ∃ f, ∀ w, field_schema fd w = (Ok f, w).
Proof.
  unfold well_formed, field_schema. intros Hwf.
  destruct (fd_name fd) as [field_name|]; [|done].
  destruct (fd_dtype fd) as [t|]; [|done].
  destruct t; simpl in *;
    try (eexists; intros w; reflexivity).
  - apply bool_decide_eq_true in Hwf as [x ->]. eexists; intros w; reflexivity.
  - apply bool_decide_eq_true in Hwf as [x ->]. eexists; intros w; reflexivity.
Qed.

Lemma map_M_field_schema_run fds :
  forallb well_formed fds = true → ∃ fs, ∀ w, map_M field_schema fds w = (Ok fs, w).
Proof.
  induction fds as [|fd fds IH]; simpl; intros Hwf.
  - by exists [].
  - apply andb_prop in Hwf as [Hfd Hfds].
    destruct (field_schema_run fd Hfd) as (f & Hf).
    destruct (IH Hfds) as (fs & Hfs).
    exists (f :: fs). intros w.
    rewrite (bind_run _ _ _ _ _ (Hf w)), (bind_run _ _ _ _ _ (Hfs w)). done.
Qed.

Lemma Collection_new_run n schema w :
  reliable → up w → remote w !! n = None →
  Collection_new n schema w
  = (Ok {| col_name := n; col_schema := schema |},
     set_remote <[n := {| rc_schema := schema; rc_indexes := []; rc_loaded := false;
                          rc_rows := []; rc_pending := [] |}]>
       (add_call (NewCollection n schema) w)).
Proof.
  intros Hr Hup Hn. unfold Collection_new.
  step pymilvus_run. pure. simpl. rewrite Hn. pure. reflexivity.
Qed.

Lemma create_field_index_run n fd w c col :
  reliable → up w →
  collections w !! n = Some col → col_name col = n → remote w !! n = Some c →
  well_formed fd = true →
  ∃ w' c', create_field_index n fd w = (Ok tt, w')
    ∧ up w' ∧ collections w' !! n = Some col ∧ remote w' !! n = Some c'
    ∧ rc_indexes c' = rc_indexes c ++ option_list (provisioned_index fd).
Proof.
  intros Hr Hup Hcol Hcn Hn Hwf. subst n.
  unfold create_field_index, provisioned_index, well_formed in *.
  destruct (fd_name fd) as [field_name|]; [|done].
  destruct (fd_dtype fd) as [t|]; [|done]. simpl.
  destruct (decide (t = FLOAT_VECTOR)) as [->|Hne].
  - pure. simpl. unfold provisioned_params, cached.
    destruct (fd_index_params fd) as [params|]; simpl.
    + destruct (dict_truthy params) eqn:Ht; simpl.
      * eexists _, _. split.
        { repeat pure. simpl. rewrite Hcol. pure.
          step Collection_create_index_run. reflexivity. }
        simpl. by rewrite lookup_insert_eq.
      * eexists _, _. split.
        { repeat pure. simpl. rewrite Hcol. pure.
          step Collection_create_index_run. reflexivity. }
        simpl. by rewrite lookup_insert_eq.
    + eexists _, _. split.
      { repeat pure. simpl. rewrite Hcol. pure.
        step Collection_create_index_run. reflexivity. }
      simpl. by rewrite lookup_insert_eq.
  - pure. rewrite bool_decide_eq_false_2 by done.
    exists w, c. split; [done|]. split_and!; try done.
    destruct t; simpl; by rewrite ?app_nil_r.
Qed.

Lemma create_field_indexes_run n fds : ∀ w c col,
  reliable → up w →
  collections w !! n = Some col → col_name col = n → remote w !! n = Some c →
  forallb well_formed fds = true →
  ∃ w' c', for_each fds (create_field_index n) w = (Ok tt, w')
    ∧ up w' ∧ collections w' !! n = Some col ∧ remote w' !! n = Some c'
    ∧ rc_indexes c' = rc_indexes c ++ omap provisioned_index fds.
Proof.
  induction fds as [|fd fds IH]; simpl; intros w c col Hr Hup Hcol Hcn Hn Hwf.
  - exists w, c. by rewrite app_nil_r.
  - apply andb_prop in Hwf as [Hfd Hfds].
    destruct (create_field_index_run n fd w c col) as (w1 & c1 & E & Hup1 & Hcol1 & Hn1 & Hi1);
      try done.
    destruct (IH w1 c1 col) as (w2 & c2 & E2 & Hup2 & Hcol2 & Hn2 & Hi2); try done.
    exists w2, c2. rewrite (bind_run _ _ _ _ _ E). split; [done|].
    split_and!; try done.
    rewrite Hi2, Hi1, <- (assoc_L (++)). f_equal.
    by destruct (provisioned_index fd).
Qed.

(** C7: over a live connection to a reliable engine, creating a collection
    whose name is free from well-formed field definitions provisions one
    index per FLOAT_VECTOR field, in the order of the definitions and on no
    other field: with the caller's index parameters, verbatim, when the
    definition carries a non-empty dict of them, and with IVF_FLAT, metric L2
    and nlist 256 when it carries none or an empty one. *)
Theorem create_collection_provisions_indexes w n schema field_definitions :
  reliable → up w → remote w !! n = None →
  sd_fields schema = Some field_definitions →
  forallb well_formed field_definitions = true →
  ∃ w' c, create_collection n schema w = (Ok tt, w')
    ∧ remote w' !! n = Some c
    ∧ rc_indexes c = omap provisioned_index field_definitions
    ∧ (∀ fd field_name,
         fd ∈ field_definitions →
         fd_name fd = Some field_name → fd_dtype fd = Some FLOAT_VECTOR →
         (∀ params, fd_index_params fd = Some params → params ≠ ∅ →
            {| index_field := field_name; index_params := params |} ∈ rc_indexes c)
         ∧ (fd_index_params fd = None ∨ fd_index_params fd = Some ∅ →
            {| index_field := field_name; index_params := default_index_params |}
            ∈ rc_indexes c))
    ∧ default_index_params
      = {[ "index_type" := PStr "IVF_FLAT"; "metric_type" := PStr "L2";
           "params" := PParams [("nlist", 256)] ]}.
Proof.
  intros Hr Hup Hn Hfields Hwf.
  unfold create_collection, try_except, create_collection_try.
  step utility_has_collection_run. rewrite Hn, Hfields. simpl. pure.
  destruct (map_M_field_schema_run _ Hwf) as (fs & Hfs).
  rewrite (bind_run _ _ _ _ _ (Hfs _)). cbv zeta.
  step Collection_new_run. repeat pure.
  match goal with |- context [bind (for_each _ _) _ ?w3] =>
    destruct (create_field_indexes_run n field_definitions w3
                {| rc_schema := {| fields := fs;
                                   description := default "" (sd_description schema) |};
                   rc_indexes := []; rc_loaded := false; rc_rows := [];
                   rc_pending := [] |}
                {| col_name := n;
                   col_schema := {| fields := fs;
                                    description := default "" (sd_description schema) |} |})
      as (w4 & c4 & E & Hup4 & Hcol4 & Hn4 & Hi4);
      [done | done | by simpl; rewrite lookup_insert_eq | done
      | by simpl; rewrite lookup_insert_eq | done |]
  end.
  rewrite (bind_run _ _ _ _ _ E). unfold cached. pure. rewrite Hcol4. pure.
  erewrite Collection_flush_run by done. simpl in Hi4.
  eexists _, _. split; [reflexivity|]. simpl. rewrite lookup_insert_eq.
  split; [reflexivity|]. simpl. split; [done|]. split; [|done].
  intros fd field_name Hin Hname Htype.
  assert ({| index_field := field_name; index_params := provisioned_params fd |}
          ∈ rc_indexes c4) as Hprov.
  { rewrite Hi4. apply list_elem_of_omap. exists fd. split; [done|].
    unfold provisioned_index. by rewrite Hname, Htype. }
  unfold provisioned_params, dict_truthy in Hprov. split.
  - intros params Hp Hne. rewrite Hp in Hprov.
    by rewrite bool_decide_eq_false_2 in Hprov.
  - intros [Hp|Hp]; rewrite Hp in Hprov; [done|].
    by rewrite bool_decide_eq_true_2 in Hprov.
Qed.

(** ** The schema consistency check *)

(** Drops the parts of the engine that a statement does not mention. *)
Ltac forget_engine :=
  try clear load_state_attribute; try clear delete_selects;
  try clear search_answer; try clear query_answer; try clear fault.

Ltac in_app := rewrite ?elem_of_app, ?elem_of_cons in *; tauto.

Lemma same_name_same_field (l : list FieldSchema) a b :
  NoDup (fs_name <$> l) → a ∈ l → b ∈ l → fs_name a = fs_name b → a = b.
Proof.
  forget_engine.
  induction l as [|x l IH]; simpl; intros Hnd Ha Hb Hab.
  - by apply elem_of_nil in Ha.
  - apply NoDup_cons in Hnd as [Hx Hnd].
    apply elem_of_cons in Ha as [->|Ha]; apply elem_of_cons in Hb as [->|Hb];
      try done.
    + exfalso. apply Hx. rewrite Hab. by apply list_elem_of_fmap_2.
    + exfalso. apply Hx. rewrite <- Hab. by apply list_elem_of_fmap_2.
    + by apply IH.
Qed.

Lemma existing_fields_foldl (l : list FieldSchema) :
  ∀ (m : gmap string FieldSchema) k a,
  NoDup (fs_name <$> l) →
  foldl (λ m field, <[fs_name field := field]> m) m l !! k = Some a
  ↔ (a ∈ l ∧ fs_name a = k) ∨ (¬ k ∈ (fs_name <$> l) ∧ m !! k = Some a).
Proof.
  forget_engine.
  induction l as [|x l IH]; simpl; intros m k a Hnd.
  - split; [intros H; right; split; [apply not_elem_of_nil | done]|].
    intros [[H _]|[_ H]]; [by apply elem_of_nil in H | done].
  - apply NoDup_cons in Hnd as [Hx Hnd]. rewrite (IH _ _ _ Hnd).
    rewrite lookup_insert. rewrite elem_of_cons, not_elem_of_cons.
    case_decide as Hk.
    + subst k. split.
      * intros [[Ha Hn]|[Hnot [= <-]]]; [|by left; split; [left|]].
        exfalso. apply Hx. rewrite <- Hn. by apply list_elem_of_fmap_2.
      * intros [[[->|Ha] Hn]|[[Hne _] _]]; [by right | | done].
        exfalso. apply Hx. rewrite <- Hn. by apply list_elem_of_fmap_2.
    + split.
      * intros [[Ha Hn]|[Hnot Hm]]; [by left; split; [right|] | by right].
      * intros [[[->|Ha] Hn]|[[_ Hnot] Hm]]; [done | by left | by right].
Qed.

Lemma existing_fields_lookup (l : list FieldSchema) k a :
  NoDup (fs_name <$> l) →
  existing_fields_of l !! k = Some a ↔ a ∈ l ∧ fs_name a = k.
Proof.
  forget_engine.
  intros Hnd. unfold existing_fields_of. rewrite existing_fields_foldl by done.
  rewrite lookup_empty. intuition congruence.
Qed.

Lemma matches_in_existing (l : list FieldSchema) e :
  NoDup (fs_name <$> l) →
  matches_in (existing_fields_of l) e ↔ ∃ a, a ∈ l ∧ field_matches e a.
Proof.
  forget_engine.
  intros Hnd. unfold matches_in. split; intros (a & Ha & Hm); exists a.
  - apply existing_fields_lookup in Ha as [Ha _]; done.
  - split; [|done]. by apply existing_fields_lookup.
Qed.

(** An alteration of the actual fields breaks exactness. *)
Lemma schema_exactly_altered actual actual' expected :
  NoDup (fs_name <$> actual) → NoDup (fs_name <$> actual') →
  altered actual actual' →
  schema_exactly actual expected → ¬ schema_exactly actual' expected.
Proof.
  forget_engine.
  intros Hnd Hnd' Halt [Hexp Hact] [Hexp' Hact'].
  destruct Halt as [l1 f l2|l1 f l2|l1 f f' l2 Hname Hdiff].
  - destruct (Hact' f) as (e & He & Hn); [in_app|].
    destruct (Hexp e He) as (a & Ha & Hm).
    destruct Hm as (Hn' & _). rewrite Hn in Hn'. injection Hn' as Hn'.
    assert (a ∈ l1 ++ f :: l2) as Ha' by in_app.
    assert (f ∈ l1 ++ f :: l2) as Hf by in_app.
    pose proof (same_name_same_field _ _ _ Hnd' Hf Ha' Hn') as <-.
    rewrite fmap_app, fmap_cons in Hnd'.
    apply NoDup_app in Hnd' as (_ & Hdisj & Hnd2).
    apply NoDup_cons in Hnd2 as [Hnot _].
    apply elem_of_app in Ha as [Ha|Ha].
    + apply (Hdisj (fs_name f)); [by apply list_elem_of_fmap_2 | left].
    + apply Hnot. by apply list_elem_of_fmap_2.
  - destruct (Hact f) as (e & He & Hn); [in_app|].
    destruct (Hexp' e He) as (a & Ha & Hm).
    destruct Hm as (Hn' & _). rewrite Hn in Hn'. injection Hn' as Hn'.
    assert (a ∈ l1 ++ f :: l2) as Ha' by in_app.
    assert (f ∈ l1 ++ f :: l2) as Hf by in_app.
    pose proof (same_name_same_field _ _ _ Hnd Hf Ha' Hn') as <-.
    rewrite fmap_app, fmap_cons in Hnd.
    apply NoDup_app in Hnd as (_ & Hdisj & Hnd2).
    apply NoDup_cons in Hnd2 as [Hnot _].
    apply elem_of_app in Ha as [Ha|Ha].
    + apply (Hdisj (fs_name f)); [by apply list_elem_of_fmap_2 | left].
    + apply Hnot. by apply list_elem_of_fmap_2.
  - destruct (Hact f) as (e & He & Hn); [in_app|].
    destruct (Hexp e He) as (a & Ha & Hm).
    assert (a = f) as ->.
    { apply (same_name_same_field _ _ _ Hnd); [done | in_app |].
      destruct Hm as (Hn' & _). rewrite Hn in Hn'. by injection Hn'. }
    destruct (Hexp' e He) as (a' & Ha' & Hm').
    assert (a' = f') as ->.
    { apply (same_name_same_field _ _ _ Hnd'); [done | in_app |].
      destruct Hm' as (Hn' & _). rewrite Hn in Hn'. injection Hn' as Hn'.
      by rewrite Hname. }
    destruct Hm as (_ & Hd & Hlen & Hdim).
    destruct Hm' as (_ & Hd' & Hlen' & Hdim').
    rewrite Hd in Hd'. injection Hd' as Hd'.
    destruct Hdiff as [Hdt|[[Hv Hl]|[Hv Hl]]].
    + by apply Hdt.
    + apply Hl. rewrite <- Hlen', <- Hlen; [done | done | by rewrite <- Hd'].
    + apply Hl. rewrite <- Hdim', <- Hdim; [done | done | by rewrite <- Hd'].
Qed.

Lemma existing_fields_keyed (l : list FieldSchema) :
  NoDup (fs_name <$> l) → keyed_by_name (existing_fields_of l).
Proof. intros Hnd k a Hk. by apply existing_fields_lookup in Hk as [_ Hk]. Qed.

Lemma matches_in_iff existing_fields e k t a :
  keyed_by_name existing_fields →
  fd_name e = Some k → fd_dtype e = Some t → existing_fields !! k = Some a →
  matches_in existing_fields e
  ↔ fs_dtype a = t
    ∧ (t = VARCHAR → fd_max_length e = fs_max_length a)
    ∧ (t = FLOAT_VECTOR → fd_dim e = fs_dim a).
Proof.
  forget_engine.
  intros Hkey Hk Ht Ha. unfold matches_in, field_matches. split.
  - intros (a' & Ha' & Hn & Hd & Hl & Hdim).
    rewrite Hk in Hn. injection Hn as ->. rewrite Ha in Ha'. injection Ha' as ->.
    rewrite Ht in Hd. injection Hd as ->. done.
  - intros (Hd & Hl & Hdim). exists a.
    pose proof (Hkey _ _ Ha) as Hka. subst k t. done.
Qed.

Lemma check_field_run n e existing_fields w :
  keyed_by_name existing_fields →
  ∃ r w', check_field n e existing_fields w = (r, w')
    ∧ (r = Ok true ↔ matches_in existing_fields e) ∧ check_outcome r.
Proof.
  forget_engine.
  intros Hkey. unfold check_field, check_outcome.
  destruct (fd_name e) as [k|] eqn:Hk; simpl.
  2: { eexists _, _. split; [reflexivity|]. split; [|eauto].
       split; [done|]. intros (a & _ & Hn & _). by rewrite Hk in Hn. }
  pure.
  destruct (fd_dtype e) as [t|] eqn:Ht; simpl.
  2: { eexists _, _. split; [reflexivity|]. split; [|eauto].
       split; [done|]. intros (a & _ & _ & Hd & _). by rewrite Ht in Hd. }
  pure.
  destruct (existing_fields !! k) as [a|] eqn:Ha.
  2: { eexists _, _. split; [reflexivity|]. split; [|eauto].
       split; [done|]. intros (a & Ha' & Hn & _).
       rewrite Hk in Hn. injection Hn as ->. by rewrite Ha in Ha'. }
  pose proof (matches_in_iff _ _ _ _ _ Hkey Hk Ht Ha) as Hm.
  destruct (decide (fs_dtype a = t)) as [Hd|Hd].
  2: { rewrite bool_decide_eq_false_2 by done. simpl.
       eexists _, _. split; [reflexivity|]. split; [|eauto].
       rewrite Hm. intuition congruence. }
  rewrite (bool_decide_eq_true_2 _ Hd). simpl.
  destruct (decide (t = VARCHAR)) as [Hv|Hv].
  { rewrite (bool_decide_eq_true_2 _ Hv).
    destruct (decide (fd_max_length e = fs_max_length a)) as [Hl|Hl].
    - rewrite (bool_decide_eq_true_2 _ Hl). simpl.
      eexists _, _. split; [reflexivity|]. split; [|eauto]. rewrite Hm.
      split; [|done]. intros _. repeat split; intros; congruence.
    - rewrite (bool_decide_eq_false_2 _ Hl). simpl.
      eexists _, _. split; [reflexivity|]. split; [|eauto].
      rewrite Hm. intuition congruence. }
  rewrite (bool_decide_eq_false_2 _ Hv).
  destruct (decide (t = FLOAT_VECTOR)) as [Hf|Hf].
  { rewrite (bool_decide_eq_true_2 _ Hf).
    destruct (decide (fd_dim e = fs_dim a)) as [Hl|Hl].
    - rewrite (bool_decide_eq_true_2 _ Hl). simpl.
      eexists _, _. split; [reflexivity|]. split; [|eauto]. rewrite Hm.
      split; [|done]. intros _. repeat split; intros; congruence.
    - rewrite (bool_decide_eq_false_2 _ Hl). simpl.
      eexists _, _. split; [reflexivity|]. split; [|eauto].
      rewrite Hm. intuition congruence. }
  rewrite (bool_decide_eq_false_2 _ Hf).
  eexists _, _. split; [reflexivity|]. split; [|eauto].
  rewrite Hm. intuition congruence.
Qed.

Lemma check_fields_run n es existing_fields : ∀ w,
  keyed_by_name existing_fields →
  ∃ r w', check_fields n es existing_fields w = (r, w')
    ∧ (r = Ok true ↔ Forall (matches_in existing_fields) es) ∧ check_outcome r.
Proof.
  forget_engine.
  induction es as [|e es IH]; simpl; intros w Hkey.
  - eexists _, _. split; [reflexivity|]. split; [done | by left].
  - destruct (check_field_run n e existing_fields w Hkey) as (r & w1 & E & Hr & Ho).
    destruct Ho as [->|[->|[k ->]]].
    + rewrite (bind_run _ _ _ _ _ E). simpl.
      destruct (IH w1 Hkey) as (r2 & w2 & E2 & Hr2 & Ho2).
      exists r2, w2. split; [done|]. split; [|done].
      rewrite Hr2, Forall_cons. intuition congruence.
    + rewrite (bind_run _ _ _ _ _ E). simpl.
      eexists _, _. split; [reflexivity|]. split; [|by right; left].
      rewrite Forall_cons. intuition congruence.
    + rewrite (bind_raise _ _ _ _ _ E).
      eexists _, _. split; [reflexivity|]. split; [|by right; right; eexists].
      rewrite Forall_cons. intuition congruence.
Qed.

Lemma expected_names_run es :
  (∀ e, e ∈ es → is_Some (fd_name e)) →
  ∃ names, (∀ w, map_M (λ field, subscript "name" (fd_name field)) es w
                 = (Ok names, w))
    ∧ fd_name <$> es = Some <$> names.
Proof.
  induction es as [|e es IH]; intros Hn.
  - by exists [].
  - destruct (Hn e) as [k Hk]; [by left|].
    destruct IH as (names & Hrun & Hnames); [intros; apply Hn; by right|].
    exists (k :: names). split.
    + intros w. simpl. rewrite Hk. simpl. pure.
      by rewrite (bind_run _ _ _ _ _ (Hrun _)).
    + by rewrite !fmap_cons, Hk, Hnames.
Qed.

Lemma schema_exactly_matches actual expected :
  NoDup (fs_name <$> actual) →
  schema_exactly actual expected
  ↔ Forall (matches_in (existing_fields_of actual)) expected
    ∧ ∀ k, k ∈ dom (existing_fields_of actual) →
           ∃ e, e ∈ expected ∧ fd_name e = Some k.
Proof.
  forget_engine.
  intros Hnd. unfold schema_exactly. rewrite Forall_forall.
  split; intros [H1 H2]; split.
  - intros e He. apply matches_in_existing; auto.
  - intros k [a Ha]%elem_of_dom.
    apply existing_fields_lookup in Ha as [Ha <-]; auto.
  - intros e He. apply matches_in_existing; auto.
  - intros a Ha. apply H2, elem_of_dom. exists a.
    by apply existing_fields_lookup.
Qed.

Lemma check_try_run w n c expected_schema field_definitions :
  reliable → remote w !! n = Some c →
  NoDup (fs_name <$> fields (rc_schema c)) →
  sd_fields expected_schema = Some field_definitions →
  ∃ r w', check_collection_schema_consistency_try n expected_schema w = (r, w')
    ∧ (r = Ok true
       ↔ field_definitions ≠ []
         ∧ schema_exactly (fields (rc_schema c)) field_definitions)
    ∧ check_outcome r.
Proof.
  forget_engine.
  intros Hr Hn Hnd Hfields. unfold check_collection_schema_consistency_try.
  destruct (ensure_connection_spec w) as (r0 & w1 & E & Hup & Hrel & _ & _).
  rewrite (Hrel Hr) in *. specialize (Hup eq_refl).
  destruct (schemas_ensure_connection (schemas w) w eq_refl) as (Hs1 & _ & _).
  rewrite E in Hs1. simpl in Hs1.
  assert (∃ c1, remote w1 !! n = Some c1 ∧ rc_schema c1 = rc_schema c)
    as (c1 & Hn1 & Hsc).
  { assert (schemas w1 !! n = schemas w !! n) as Hsn by (by rewrite Hs1).
    unfold schemas in Hsn. rewrite !lookup_fmap, Hn in Hsn.
    destruct (remote w1 !! n) as [c1|]; [|done].
    exists c1. split; [done|]. by injection Hsn. }
  rewrite (bind_run _ _ _ _ _ E).
  step utility_has_collection_run. rewrite Hn1. simpl.
  step Collection_open_run. simpl. rewrite Hsc, Hfields.
  apply schema_exactly_matches with (expected := field_definitions) in Hnd as Hex.
  pose proof (existing_fields_keyed _ Hnd) as Hkey.
  set (ex := existing_fields_of (fields (rc_schema c))) in *.
  destruct field_definitions as [|e es].
  { assert (∀ b, check_outcome (Ok b)) as Hob
      by (intros []; [by left | by right; left]).
    destruct (bool_decide (ex = ∅)); simpl; repeat pure; simpl; repeat pure;
      (eexists _, _; split; [reflexivity|]; split; [|apply Hob]);
      split; [done | by intros [? _] | done | by intros [? _]]. }
  destruct (decide (ex = ∅)) as [Hempty|Hne].
  { rewrite (bool_decide_eq_true_2 _ Hempty). simpl. repeat pure.
    eexists _, _. split; [reflexivity|]. split; [|by right; left].
    split; [done|]. intros [_ Hexact]. apply Hex in Hexact as [Hall _].
    apply Forall_cons in Hall as [(a & Ha & _) _].
    by rewrite Hempty, lookup_empty in Ha. }
  rewrite (bool_decide_eq_false_2 _ Hne).
  repeat (pure; cbv beta iota delta [negb list_truthy subscript]).
  destruct (check_fields_run n (e :: es) ex
              (add_call (OpenCollection n) (add_call (HasCollection n) w1)) Hkey)
    as (r & w2 & E2 & Hr2 & Ho2).
  destruct Ho2 as [->|[->|[k ->]]].
  - rewrite (bind_run _ _ _ _ _ E2). cbv beta iota delta [negb]. pure.
    assert (Forall (matches_in ex) (e :: es)) as Hall by (by apply Hr2).
    destruct (expected_names_run (e :: es)) as (names & Hrun & Hnames).
    { intros e' He'. rewrite Forall_forall in Hall.
      destruct (Hall e' He') as (a & _ & Hna & _). by rewrite Hna. }
    rewrite (bind_run _ _ _ _ _ (Hrun _)). cbv zeta.
    assert (∀ k, k ∈ names ↔ ∃ e', e' ∈ e :: es ∧ fd_name e' = Some k) as Hk.
    { intros k. rewrite <- (list_elem_of_fmap_inj Some), <- Hnames.
      rewrite list_elem_of_fmap.
      split; [intros (x & Hx & Hin) | intros (x & Hin & Hx)]; exists x; by split. }
    destruct (decide (dom ex ∖ list_to_set names = (∅ : gset string)))
      as [Hnoextra|Hextra].
    + rewrite (bool_decide_eq_true_2 _ Hnoextra). simpl. pure.
      eexists _, _. split; [reflexivity|]. split; [|by left].
      split; [|done]. intros _. split; [done|]. apply Hex. split; [done|].
      intros k Hkd. apply Hk.
      destruct (decide (k ∈ names)) as [|Hnot]; [done|].
      assert (k ∈ dom ex ∖ list_to_set names) as Hin
        by (apply elem_of_difference; split; [done|]; by rewrite elem_of_list_to_set).
      rewrite Hnoextra in Hin. by apply elem_of_empty in Hin.
    + rewrite (bool_decide_eq_false_2 _ Hextra). simpl. pure.
      eexists _, _. split; [reflexivity|]. split; [|by right; left].
      split; [done|]. intros [_ Hexact]. apply Hex in Hexact as [_ Hnames'].
      exfalso. apply Hextra. apply set_eq. intros k.
      rewrite elem_of_difference, elem_of_list_to_set, Hk.
      split; [|by intros ?%elem_of_empty]. intros [Hkd Hnot].
      exfalso. by apply Hnot, Hnames'.
  - rewrite (bind_run _ _ _ _ _ E2). simpl.
    eexists _, _. split; [reflexivity|]. split; [|by right; left].
    split; [done|]. intros [_ Hexact]. apply Hex in Hexact as [Hall _].
    by apply Hr2 in Hall.
  - rewrite (bind_raise _ _ _ _ _ E2).
    eexists _, _. split; [reflexivity|]. split; [|by right; right; eexists].
    split; [done|]. intros [_ Hexact]. apply Hex in Hexact as [Hall _].
    by apply Hr2 in Hall.
Qed.

Lemma check_run w n c expected_schema field_definitions :
  reliable → remote w !! n = Some c →
  NoDup (fs_name <$> fields (rc_schema c)) →
  sd_fields expected_schema = Some field_definitions →
  ∃ b w', check_collection_schema_consistency n expected_schema w = (Ok b, w')
    ∧ (b = true
       ↔ field_definitions ≠ []
         ∧ schema_exactly (fields (rc_schema c)) field_definitions).
Proof.
  forget_engine.
  intros Hr Hn Hnd Hfields.
  destruct (check_try_run w n c expected_schema field_definitions)
    as (r & w1 & E & Hiff & Ho); try done.
  unfold check_collection_schema_consistency, try_except. rewrite E.
  destruct Ho as [->|[->|[k ->]]].
  - eexists _, _. split; [reflexivity|]. rewrite <- Hiff. done.
  - eexists _, _. split; [reflexivity|]. rewrite <- Hiff. intuition congruence.
  - eexists _, _. split; [reflexivity|]. rewrite <- Hiff. intuition congruence.
Qed.

(** C2: for a collection that exists on a reliable engine, with at least
    one field and distinct field names, as the engine holds them, and for
    every expected schema, the check returns true if and only if the actual
    field set is exactly the expected one: every expected field is an actual
    field of the same name and dtype, with the same max_length when it is a
    VARCHAR and the same dim when it is a FLOAT_VECTOR, and no actual field
    is outside the expected names.  After a check that returned true, the
    check of the same expected schema returns false against the collection
    with one field added, one field removed, or one field changed in its
    dtype, in the max_length of a VARCHAR or in the dim of a
    FLOAT_VECTOR. *)
Theorem check_schema_exact w n c expected_schema field_definitions :
  reliable → remote w !! n = Some c →
  fields (rc_schema c) ≠ [] →
  NoDup (fs_name <$> fields (rc_schema c)) →
  sd_fields expected_schema = Some field_definitions →
  ∃ b w', check_collection_schema_consistency n expected_schema w = (Ok b, w')
    ∧ (b = true ↔ schema_exactly (fields (rc_schema c)) field_definitions)
    ∧ (b = true →
       ∀ w2 c2, remote w2 !! n = Some c2 →
         NoDup (fs_name <$> fields (rc_schema c2)) →
         altered (fields (rc_schema c)) (fields (rc_schema c2)) →
         (check_collection_schema_consistency n expected_schema w2).1 = Ok false).
Proof.
  forget_engine.
  intros Hr Hn Hne Hnd Hfields.
  destruct (check_run w n c expected_schema field_definitions)
    as (b & w' & E & Hiff); try done.
  exists b, w'. split; [done|]. split.
  - rewrite Hiff. split; [by intros [_ ?]|]. intros Hex. split; [|done].
    intros ->. destruct (fields (rc_schema c)) as [|a l] eqn:Hl; [done|].
    destruct Hex as [_ Hex]. destruct (Hex a) as (e & He & _); [by left|].
    by apply elem_of_nil in He.
  - intros Hb w2 c2 Hn2 Hnd2 Halt.
    destruct (check_run w2 n c2 expected_schema field_definitions)
      as (b2 & w2' & E2 & Hiff2); try done.
    rewrite E2. simpl. destruct b2; [|done]. exfalso.
    destruct Hiff as [Hiff _]. destruct (Hiff Hb) as [_ Hex].
    destruct Hiff2 as [Hiff2 _]. destruct (Hiff2 eq_refl) as [_ Hex2].
    by apply (schema_exactly_altered _ _ _ Hnd Hnd2 Halt Hex).
Qed.

(** * Further properties of the client *)

(** ** Runs of the operations on a reliable engine *)

(** [step_with tac] runs the first action of a sequence, [tac] proving what
    it returns. *)
Ltac step_with tac := rewrite ?bind_assoc; erewrite bind_run by tac; cbv beta.

Lemma set_loaded_same b c : rc_loaded c = b → set_loaded b c = c.
Proof. destruct c. simpl. by intros ->. Qed.

(** The handle resolution, by its final state. *)
Lemma get_collection_run w n c :
  reliable → up w → coherent w → remote w !! n = Some c →
  ∃ col w', _get_collection n w = (Ok col, w')
    ∧ col = default (handle_of n c) (collections w !! n)
    ∧ col_name col = n
    ∧ up w' ∧ clock w' = clock w
    ∧ collections w' = <[n := col]> (collections w)
    ∧ remote w' = <[n := set_loaded true c]> (remote w)
    ∧ calls w' = calls w ++ issued
        ((if collections w !! n is Some _ then []
          else [HasCollection n; OpenCollection n])
         ++ [GetLoadState n] ++ (if rc_loaded c then [] else [Load n])).
Proof.
  intros Hr Hup Hco Hn. unfold up in *. unfold _get_collection.
  destruct (collections w !! n) as [col|] eqn:Hcol.
  - assert (col_name col = n) as Hcn by eauto. subst n.
    destruct (rc_loaded c) eqn:Hl.
    + eexists _, _. split.
      { pure. rewrite Hcol. pure.
        step utility_load_state_run. rewrite Hn, Hl. simpl. pure. reflexivity. }
      simpl. rewrite Hup, (set_loaded_same _ _ Hl), !insert_id by done. done.
    + eexists _, _. split.
      { pure. rewrite Hcol. pure.
        step utility_load_state_run. rewrite Hn, Hl. simpl.
        pure. step Collection_load_run. reflexivity. }
      simpl. rewrite Hup, insert_id, <- (assoc_L (++)) by done. done.
  - destruct (rc_loaded c) eqn:Hl.
    + eexists _, _. split.
      { pure. rewrite Hcol.
        step utility_has_collection_run. rewrite Hn. simpl.
        step Collection_open_run. pure. pure.
        step utility_load_state_run. simpl. rewrite Hn, Hl. simpl.
        pure. reflexivity. }
      simpl. rewrite Hup, (set_loaded_same _ _ Hl), (insert_id (remote w)) by done.
      rewrite <- !(assoc_L (++)). done.
    + eexists _, _. split.
      { pure. rewrite Hcol.
        step utility_has_collection_run. rewrite Hn. simpl.
        step Collection_open_run. pure. pure.
        step utility_load_state_run. simpl. rewrite Hn, Hl. simpl.
        pure. step Collection_load_run. reflexivity. }
      simpl. rewrite Hup, <- !(assoc_L (++)). done.
Qed.

(** ** A handle that outlived its collection *)

(** X15: a cached handle is not checked against the engine again.  Over a
    live connection to a reliable engine, when a name is cached and its
    collection is gone remotely, resolving the name does not raise the
    ValueError of a missing collection; the load state is queried, the load
    is attempted and its failure propagates, and the stale handle stays in
    the cache. *)
Theorem get_collection_stale_handle w n col :
  reliable → up w →
  collections w !! n = Some col → col_name col = n → remote w !! n = None →
  ∃ w', _get_collection n w
        = (Raise (MilvusException ("collection not found: " +:+ n)), w')
    ∧ calls w' = calls w ++ issued [GetLoadState n; Load n]
    ∧ collections w' = collections w ∧ remote w' = remote w.
Proof.
  intros Hr Hup Hcol Hcn Hn. unfold up in *. subst n. unfold _get_collection.
  eexists. split.
  { pure. rewrite Hcol. pure.
    step utility_load_state_run. rewrite Hn. simpl. pure.
    unfold Collection_load. step pymilvus_run.
    cbv [update_collection the_collection bind get_world raise]. simpl.
    rewrite Hn. reflexivity. }
  simpl. rewrite Hup, <- (assoc_L (++)). done.
Qed.

Lemma get_collection_not_found_run w n :
  reliable → up w → collections w !! n = None → remote w !! n = None →
  _get_collection n w
  = (Raise (ValueError ("Collection '" +:+ n +:+ "' does not exist.")),
     add_call (HasCollection n) w).
Proof.
  intros Hr Hup Hcol Hn. unfold _get_collection. pure. rewrite Hcol.
  step utility_has_collection_run. rewrite Hn. reflexivity.
Qed.

Lemma ensure_connection_up w : up w → _ensure_connection w = (Ok tt, w).
Proof.
  intros Hup. destruct (ensure_connection_spec w) as (r & w1 & E & _ & _ & Hw & _).
  destruct (Hw Hup) as [-> ->]. done.
Qed.

(** ** Reads *)

(** X17: [query] works on cached handles only.  Over a live connection to a
    reliable engine, with a coherent cache: on a cache miss it returns
    the empty list without a single call to the engine, also when the
    collection exists remotely.  On a cached handle it issues a load, whatever
    the load state, then one query with the caller's filter and output
    fields, passed through as they are, without sort or limit, and returns
    the engine's answer. *)
Theorem query_on_cached_handles_only w n filters output_fields :
  reliable → up w → coherent w →
  match collections w !! n with
  | None =>
      query n filters output_fields w
      = (Ok [], add_log ERROR ("条件查询失败: 集合 '" +:+ n +:+ "' 不存在.") w)
  | Some _ =>
      ∀ c, remote w !! n = Some c →
      ∃ w', query n filters output_fields w
            = (Ok (query_answer (set_loaded true c)
                     (Query n filters output_fields None None)), w')
        ∧ calls w' = calls w
            ++ issued [Load n; Query n filters output_fields None None]
        ∧ remote w' = <[n := set_loaded true c]> (remote w)
        ∧ collections w' = collections w
  end.
Proof.
  intros Hr Hup Hco. unfold query, try_except, query_try.
  rewrite (bind_run _ _ _ _ _ (ensure_connection_up w Hup)). pure.
  destruct (collections w !! n) as [col|] eqn:Hcol; [|done].
  intros c Hn. assert (col_name col = n) as Hcn by eauto. subst n.
  unfold up in Hup. step Collection_load_run.
  unfold Collection_query, the_loaded_collection.
  step pymilvus_run.
  step_with ltac:(eapply the_collection_run; simpl; apply lookup_insert_eq).
  simpl. eexists. split; [reflexivity|]. simpl.
  by rewrite Hup, <- (assoc_L (++)).
Qed.

(** X16: [delete] works on cached handles only and never resolves a name.
    Over a live connection to a reliable engine, with a coherent cache: on
    a cache miss it logs an error and issues no call, so nothing is deleted
    even when the collection exists remotely.  On a cached handle it issues
    one delete with the caller's expression, without loading or flushing,
    and the collection loses the rows the expression selects and no
    other. *)
Theorem delete_on_cached_handles_only w n expr :
  reliable → up w → coherent w →
  match collections w !! n with
  | None =>
      delete n expr w
      = (Ok tt, add_log ERROR
                  ("删除失败: Collection '" +:+ n +:+ "' does not exist.") w)
  | Some _ =>
      ∀ c, remote w !! n = Some c →
      ∃ w', delete n expr w = (Ok tt, w')
        ∧ calls w' = calls w ++ issued [Delete n expr]
        ∧ remote w' = <[n := without (delete_selects expr) c]> (remote w)
        ∧ collections w' = collections w
        ∧ (∀ row, row ∈ rc_rows (without (delete_selects expr) c)
                  ↔ row ∈ rc_rows c ∧ delete_selects expr row = false)
  end.
Proof.
  intros Hr Hup Hco. unfold delete, try_except, delete_try. pure.
  destruct (collections w !! n) as [col|] eqn:Hcol; [|done].
  intros c Hn. assert (col_name col = n) as Hcn by eauto. subst n.
  unfold up in Hup. unfold Collection_delete.
  step pymilvus_run.
  step_with ltac:(by eapply update_collection_run).
  eexists. split; [reflexivity|]. simpl. rewrite Hup.
  split_and!; try done.
  intros row. rewrite list_elem_of_In, filter_In, <- list_elem_of_In.
  by rewrite negb_true_iff.
Qed.

(** X13: [get_latest_memory] resolves the handle through [_get_collection].
    Over a live connection to a reliable engine, with a coherent cache:
    for a collection that exists remotely, cached or not, it leaves the
    collection loaded and cached and returns the engine's answer to one
    query without filter, of all fields, sorted by "create_time"
    descending and bounded by [limit]; for a name that is neither cached nor
    remote it returns the empty list after logging that the collection does
    not exist. *)
Theorem get_latest_memory_resolves_lazily w n limit :
  reliable → up w → coherent w →
  match remote w !! n with
  | Some c =>
      ∃ w', get_latest_memory n limit w
            = (Ok (query_answer (set_loaded true c)
                     (Query n "" ["*"] (Some ("create_time", "desc"))
                        (Some limit))), w')
        ∧ collections w' !! n
          = Some (default (handle_of n c) (collections w !! n))
        ∧ remote w' = <[n := set_loaded true c]> (remote w)
  | None =>
      collections w !! n = None →
      ∃ w', get_latest_memory n limit w = (Ok [], w')
        ∧ last (logs w')
          = Some {| log_level := ERROR;
                    log_text := "集合不存在: Collection '" +:+ n
                                +:+ "' does not exist." |}
        ∧ remote w' = remote w ∧ collections w' = collections w
  end.
Proof.
  intros Hr Hup Hco. unfold get_latest_memory, try_except, get_latest_memory_try.
  destruct (remote w !! n) as [c|] eqn:Hn.
  - destruct (get_collection_run w n c Hr Hup Hco Hn)
      as (col & w1 & E & Hcol & Hcn & Hup1 & _ & Hcache & Hremote & _).
    rewrite (bind_run _ _ _ _ _ E).
    unfold Collection_query, the_loaded_collection. unfold up in Hup1.
    step pymilvus_run.
    step_with ltac:(eapply the_collection_run; simpl; rewrite Hremote, Hcn;
                    apply lookup_insert_eq).
    simpl. rewrite Hcn.
    eexists. split.
    { by destruct (query_answer _ _). }
    simpl. rewrite Hcache, lookup_insert_eq, Hcol. done.
  - intros Hcol.
    rewrite (bind_raise _ _ _ _ _ (get_collection_not_found_run w n Hr Hup Hcol Hn)).
    eexists. split; [reflexivity|]. simpl. by rewrite last_snoc.
Qed.

(** ** The hits of a search *)

(** The loop body never raises: a hit is normalised or skipped with one
    entry in the log, and nothing else changes. *)
Lemma search_hit_run hit w :
  ∃ w', search_hit hit w = (Ok (normalised hit), w')
    ∧ calls w' = calls w ∧ remote w' = remote w
    ∧ collections w' = collections w
    ∧ length (logs w')
      = (length (logs w) + if normalised hit is Some _ then 0 else 1)%nat.
Proof.
  forget_engine. unfold search_hit, normalised.
  destruct (hit_id hit) as [id|], (hit_distance hit) as [distance|],
    (hit_entity hit) as [[[entity_dict|e]|[entity_dict|e]]|];
    try destruct e;
    (eexists; split; [reflexivity|]); simpl;
    rewrite ?length_app; simpl; split_and!; try done; lia.
Qed.

Lemma search_hits_run (hits : list Hit) : ∀ w,
  ∃ w', map_M search_hit hits w = (Ok (normalised <$> hits), w')
    ∧ calls w' = calls w ∧ remote w' = remote w
    ∧ collections w' = collections w
    ∧ (length (logs w') + length (omap normalised hits)
       = length (logs w) + length hits)%nat.
Proof.
  forget_engine. induction hits as [|hit hits IH]; intros w.
  - exists w. simpl. split_and!; try done.
  - destruct (search_hit_run hit w) as (w1 & E & Hc & Hr & Hco & Hl).
    destruct (IH w1) as (w2 & E2 & Hc2 & Hr2 & Hco2 & Hl2).
    exists w2. split.
    { simpl. by rewrite (bind_run _ _ _ _ _ E), (bind_run _ _ _ _ _ E2). }
    split_and!; try congruence.
    change (hit :: hits) with ([hit] ++ hits). rewrite omap_app, !length_app.
    assert (length (omap normalised [hit])
            + (if normalised hit is Some _ then 0 else 1) = 1)%nat as H1
      by (simpl; by destruct (normalised hit)).
    change (length [hit]) with 1%nat. lia.
Qed.

Lemma search_results_run (results : list (list Hit)) : ∀ w,
  ∃ w', map_M (map_M search_hit) results w
        = (Ok (fmap (M:=list) normalised <$> results), w')
    ∧ calls w' = calls w ∧ remote w' = remote w
    ∧ collections w' = collections w
    ∧ (length (logs w') + length (omap normalised (concat results))
       = length (logs w) + length (concat results))%nat.
Proof.
  forget_engine. induction results as [|hits results IH]; intros w.
  - exists w. simpl. split_and!; try done.
  - destruct (search_hits_run hits w) as (w1 & E & Hc & Hr & Hco & Hl).
    destruct (IH w1) as (w2 & E2 & Hc2 & Hr2 & Hco2 & Hl2).
    exists w2. split.
    { simpl. by rewrite (bind_run _ _ _ _ _ E), (bind_run _ _ _ _ _ E2). }
    split_and!; try congruence.
    change (concat (hits :: results)) with (hits ++ concat results).
    rewrite omap_app, !length_app. lia.
Qed.

Lemma omap_id_normalised (results : list (list Hit)) :
  omap id (concat (fmap (M:=list) normalised <$> results))
  = omap normalised (concat results).
Proof.
  forget_engine. induction results as [|hits results IH]; [done|].
  rewrite fmap_cons.
  change (concat (?a :: ?b)) with (a ++ concat b).
  rewrite !omap_app, IH. f_equal.
  induction hits as [|hit hits IHh]; [done|].
  rewrite fmap_cons.
  change (omap id (normalised hit :: (normalised <$> hits)))
    with (match normalised hit with
          | Some y => y :: omap id (normalised <$> hits)
          | None => omap id (normalised <$> hits)
          end).
  rewrite IHh. reflexivity.
Qed.

(** X12: over a live connection to a reliable engine, with a coherent
    cache, on a cached collection that has a FLOAT_VECTOR field named
    "embedding", [search] issues a load and one search for the single query
    vector, with metric L2, nprobe 10, the caller's limit and filter, and
    returns the hits of the engine's answer, normalised and in their order,
    without those that lack an id, a distance or an entity or whose entity
    does not convert to a dict: each such hit is skipped with one entry in
    the log and does not fail the search. *)
Theorem search_skips_malformed_hits w n query_vector top_k filters col c :
  reliable → up w → coherent w →
  collections w !! n = Some col → remote w !! n = Some c →
  existsb (is_vector_field "embedding") (fields (rc_schema c)) = true →
  ∃ w', search n query_vector top_k filters w
        = (Ok (omap normalised
                 (concat (search_answer (set_loaded true c)
                            (Search n [query_vector] "embedding" search_params
                               top_k filters)))), w')
    ∧ calls w' = calls w ++ issued
        [Load n; Search n [query_vector] "embedding" search_params top_k filters]
    ∧ search_params
      = {[ "metric_type" := PStr "L2"; "params" := PParams [("nprobe", 10)] ]}
    ∧ (length (logs w')
       + length (omap normalised
                   (concat (search_answer (set_loaded true c)
                              (Search n [query_vector] "embedding"
                                 search_params top_k filters))))
       = length (logs w)
         + length (concat (search_answer (set_loaded true c)
                             (Search n [query_vector] "embedding"
                                search_params top_k filters))))%nat.
Proof.
  intros Hr Hup Hco Hcol Hn Hvec. unfold search, try_except, search_try.
  rewrite (bind_run _ _ _ _ _ (ensure_connection_up w Hup)). pure.
  rewrite Hcol. assert (col_name col = n) as Hcn by eauto. subst n.
  unfold up in Hup. step Collection_load_run.
  unfold Collection_search, the_loaded_collection.
  step pymilvus_run.
  step_with ltac:(eapply the_collection_run; simpl; apply lookup_insert_eq).
  simpl. pure. simpl. rewrite Hvec. pure.
  match goal with |- context [bind (map_M (map_M search_hit) ?rs) _ ?w1] =>
    destruct (search_results_run rs w1) as (w2 & E & Hc & Hrm & Hcc & Hl) end.
  rewrite (bind_run _ _ _ _ _ E). unfold ret.
  exists w2. rewrite omap_id_normalised. split; [done|].
  rewrite Hc. simpl in *. rewrite Hup, <- (assoc_L (++)).
  split_and!; try done.
Qed.

(** ** The field that [search] searches, on a cached collection *)

(** C10: [search] searches the field named "embedding", whatever the schema
    of the collection is.  Every search call that [search] issues names
    "embedding", in every world and for every engine.  Over a live
    connection to a reliable engine, on a cached collection, [search] does
    issue the call: a load, then one search of the query vector on
    "embedding".  When the collection has no FLOAT_VECTOR field of this
    name, for instance because its vector field has another name, the engine
    rejects this search, the body of [search] raises and [search] returns
    the empty list; and whatever the engine and the connection do, [search]
    on such a collection never returns anything else. *)
Theorem search_only_embedding :
  (∀ w n query_vector top_k filters,
     ∃ cs, calls (search n query_vector top_k filters w).2 = calls w ++ cs
           ∧ Forall searches_embedding cs)
  ∧ (∀ w n query_vector top_k filters col c,
       reliable → up w → coherent w →
       collections w !! n = Some col → remote w !! n = Some c →
       calls (search n query_vector top_k filters w).2
       = calls w ++ issued
           [Load n; Search n [query_vector] "embedding" search_params top_k filters]
       ∧ (existsb (is_vector_field "embedding") (fields (rc_schema c)) = false →
          (search_try n query_vector top_k filters w).1
          = Raise (MilvusException "no vector field named embedding")
          ∧ (search n query_vector top_k filters w).1 = Ok []))
  ∧ (∀ w n query_vector top_k filters,
       coherent w →
       (∀ c, remote w !! n = Some c →
             existsb (is_vector_field "embedding") (fields (rc_schema c)) = false) →
       (∃ e w', search_try n query_vector top_k filters w = (Raise e, w'))
       ∧ (search n query_vector top_k filters w).1 = Ok []).
Proof.
  split_and!.
  - intros. unfold search. rewrite try_except_journal by done.
    destruct (search_try_journal n query_vector top_k filters w) as (_ & Hcs & _);
      done.
  - intros w n query_vector top_k filters col c Hr Hup Hco Hcol Hn.
    assert (col_name col = n) as Hcn by eauto. subst n.
    assert (∃ r w', search_try (col_name col) query_vector top_k filters w = (r, w')
              ∧ calls w' = calls w ++ issued
                  [Load (col_name col);
                   Search (col_name col) [query_vector] "embedding" search_params
                     top_k filters]
              ∧ (existsb (is_vector_field "embedding") (fields (rc_schema c)) = false →
                 r = Raise (MilvusException "no vector field named embedding")))
      as (r & w' & E & Hcalls & Hfail).
    { unfold search_try.
      rewrite (bind_run _ _ _ _ _ (ensure_connection_up w Hup)). pure.
      rewrite Hcol. unfold up in Hup. step Collection_load_run.
      unfold Collection_search, the_loaded_collection.
      step pymilvus_run.
      step_with ltac:(eapply the_collection_run; simpl; apply lookup_insert_eq).
      simpl. pure. simpl.
      destruct (existsb (is_vector_field "embedding") (fields (rc_schema c))).
      - pure.
        match goal with |- context [bind (map_M (map_M search_hit) ?rs) _ ?w1] =>
          destruct (search_results_run rs w1) as (w2 & E & Hc & _) end.
        rewrite (bind_run _ _ _ _ _ E). unfold ret.
        eexists _, w2. split; [reflexivity|]. split; [|done].
        rewrite Hc. simpl. by rewrite Hup, <- (assoc_L (++)).
      - eexists _, _. split; [reflexivity|]. split; [|done].
        simpl. by rewrite Hup, <- (assoc_L (++)). }
    split.
    + unfold search. rewrite try_except_journal by done. by rewrite E.
    + intros Hno. rewrite E. split; [by apply Hfail|].
      unfold search, try_except. by rewrite E, (Hfail Hno).
  - intros w n query_vector top_k filters Hco Hno.
    destruct (search_try_fails w n query_vector top_k filters Hco Hno)
      as (e & w' & E).
    split; [by eexists _, _|]. unfold search, try_except. by rewrite E.
Qed.

(** ** Malformed schemas *)

Lemma utility_has_collection_any n w :
  ∃ r, utility_has_collection n w = (r, add_call (HasCollection n) w).
Proof.
  cbv [utility_has_collection pymilvus bind get_world ret].
  destruct (negb (has_connection w)); [by eexists|].
  destruct (fault (calls w) (HasCollection n)); by eexists.
Qed.

Lemma field_schema_raises fd :
  well_formed fd = false → ∃ k, ∀ w, field_schema fd w = (Raise (KeyError k), w).
Proof.
  forget_engine. unfold well_formed, field_schema. intros Hwf.
  destruct (fd_name fd) as [field_name|]; [|by eexists].
  destruct (fd_dtype fd) as [t|]; [|by eexists].
  destruct t; simpl in *; try done.
  - apply bool_decide_eq_false in Hwf.
    destruct (fd_max_length fd); [by destruct Hwf | by eexists].
  - apply bool_decide_eq_false in Hwf.
    destruct (fd_dim fd); [by destruct Hwf | by eexists].
Qed.

Lemma map_M_field_schema_raises fds :
  forallb well_formed fds = false →
  ∃ k, ∀ w, map_M field_schema fds w = (Raise (KeyError k), w).
Proof.
  forget_engine. induction fds as [|fd fds IH]; simpl; intros Hwf; [done|].
  destruct (well_formed fd) eqn:Hfd; simpl in Hwf.
  - destruct (field_schema_run fd Hfd) as (f & Hf).
    destruct (IH Hwf) as (k & Hk). exists k. intros w.
    by rewrite (bind_run _ _ _ _ _ (Hf w)), (bind_raise _ _ _ _ _ (Hk w)).
  - destruct (field_schema_raises fd Hfd) as (k & Hk). exists k. intros w.
    by rewrite (bind_raise _ _ _ _ _ (Hk w)).
Qed.

(** X14: the field descriptors are all built before anything is created.
    When the schema has no "fields" key, or one of its definitions lacks
    "name" or "dtype", or a VARCHAR lacks "max_length", or a FLOAT_VECTOR
    lacks "dim", [create_collection] issues the existence check and no other
    call, returns normally, and leaves the engine and the cache as they
    were, whatever the engine and the connection do. *)
Theorem create_collection_malformed_creates_nothing w n schema :
  match sd_fields schema with
  | None => True
  | Some field_definitions => forallb well_formed field_definitions = false
  end →
  ∃ w', create_collection n schema w = (Ok tt, w')
    ∧ calls w' = calls w ++ [{| call_up := has_connection w;
                                call_event := HasCollection n |}]
    ∧ remote w' = remote w ∧ collections w' = collections w.
Proof.
  intros Hbad. unfold create_collection, try_except, create_collection_try.
  destruct (utility_has_collection_any n w) as (r & E).
  destruct r as [[|]|e].
  - rewrite (bind_run _ _ _ _ _ E). by eexists.
  - rewrite (bind_run _ _ _ _ _ E). cbv beta iota.
    destruct (sd_fields schema) as [field_definitions|]; [|by eexists].
    pure. destruct (map_M_field_schema_raises _ Hbad) as (k & Hk).
    rewrite (bind_raise _ _ _ _ _ (Hk _)). by eexists.
  - rewrite (bind_raise _ _ _ _ _ E). by eexists.
Qed.

(** ** Invariants of the operations *)

Lemma stored_set_loaded w n c b :
  remote w !! n = Some c →
  stored (set_remote <[n := set_loaded b c]> w) = stored w.
Proof.
  intros Hn. unfold stored. simpl. rewrite fmap_insert.
  apply insert_id. by rewrite lookup_fmap, Hn.
Qed.

Ltac stored_leaf :=
  unfold any; intros; simpl in *;
  try match goal with
  | |- stored (set_remote <[_ := set_loaded _ _]> _) = _ =>
      rewrite stored_set_loaded by done
  end; eauto.

Lemma stored_check_fields S n field_definitions existing_fields :
  keeps (λ w, stored w = S) any any
    (check_fields n field_definitions existing_fields).
Proof.
  induction field_definitions as [|fd rest IH]; simpl;
    keeps_with ltac:(first [exact IH | stored_leaf]).
Qed.

Lemma stored_get_loaded_collections_loop S names : ∀ loaded,
  keeps (λ w, stored w = S) any any (get_loaded_collections_loop names loaded).
Proof.
  induction names as [|name names IH]; intros loaded; simpl;
    unfold Collection_load_state;
    keeps_with ltac:(first [apply IH | stored_leaf]).
Qed.

(** X7: the operations that read change the load state of collections and
    the cache at most: after [connect], [close], [list_collections],
    [get_loaded_collections], [query], [search], [get_latest_memory] and the
    schema check, every remote collection has the schema, the indexes, the
    durable rows and the pending rows it had, and no collection has appeared
    or disappeared, whatever the engine rejects. *)
Theorem reads_leave_contents w :
  stored (connect w).2 = stored w
  ∧ stored (close w).2 = stored w
  ∧ stored (list_collections w).2 = stored w
  ∧ stored (get_loaded_collections w).2 = stored w
  ∧ (∀ n filters output_fields,
       stored (query n filters output_fields w).2 = stored w)
  ∧ (∀ n query_vector top_k filters,
       stored (search n query_vector top_k filters w).2 = stored w)
  ∧ (∀ n limit, stored (get_latest_memory n limit w).2 = stored w)
  ∧ (∀ n expected_schema,
       stored (check_collection_schema_consistency n expected_schema w).2
       = stored w).
Proof.
  assert (∀ A (m : M A), keeps (λ w0, stored w0 = stored w) any any m →
                         stored (m w).2 = stored w) as Hk.
  { intros A m Hm. by destruct (Hm w eq_refl) as (H & _). }
  split_and!; intros; apply Hk.
  - keeps_with stored_leaf.
  - keeps_with stored_leaf.
  - keeps_with stored_leaf.
  - unfold get_loaded_collections.
    keeps_with ltac:(first [apply stored_get_loaded_collections_loop | stored_leaf]).
  - unfold query, query_try. keeps_with stored_leaf.
  - unfold search, search_try. keeps_with stored_leaf.
  - unfold get_latest_memory, get_latest_memory_try. keeps_with stored_leaf.
  - unfold check_collection_schema_consistency,
      check_collection_schema_consistency_try.
    keeps_with ltac:(first [apply stored_check_fields | stored_leaf]).
Qed.

Ltac coherent_leaf' :=
  unfold coherent, any; intros; simpl in *;
  repeat match goal with
  | H : <[_:=_]> _ !! _ = Some _ |- _ =>
      apply lookup_insert_Some in H as [[<- <-]|[_ H]]
  | H : base.delete _ _ !! _ = Some _ |- _ =>
      apply lookup_delete_Some in H as [_ H]
  | H : ∅ !! _ = Some _ |- _ => by rewrite lookup_empty in H
  end; eauto.

Lemma coherent_Collection_new n schema :
  keeps coherent any (λ col, col_name col = n) (Collection_new n schema).
Proof.
  unfold Collection_new.
  eapply (keeps_bind _ _ any); [by apply keeps_pymilvus | intros _ _].
  eapply (keeps_bind _ _ any); [apply keeps_get_world | intros w _].
  destruct (remote w !! n); [by apply keeps_ret|].
  eapply (keeps_bind _ _ any); [by apply keeps_modify | intros _ _].
  by apply keeps_ret.
Qed.

Lemma coherent_field_schema fd : keeps coherent any any (field_schema fd).
Proof. unfold field_schema. keeps_with coherent_leaf'. Qed.

Lemma coherent_create_collection n schema :
  keeps coherent any any (create_collection n schema).
Proof.
  unfold create_collection, create_collection_try.
  apply keeps_try_except; [|intros e; keeps_with coherent_leaf'].
  eapply (keeps_bind _ _ any); [keeps_with coherent_leaf' | intros b _].
  destruct b; [keeps_with coherent_leaf'|].
  eapply (keeps_bind _ _ any); [apply keeps_subscript | intros fds _].
  eapply (keeps_bind _ _ any);
    [apply keeps_map_M; intros fd; apply coherent_field_schema | intros fs _].
  cbv zeta.
  eapply (keeps_bind _ _ (λ col, col_name col = n));
    [apply coherent_Collection_new | intros col Hcol].
  unfold create_field_index. keeps_with coherent_leaf'.
Qed.

Lemma coherent_check_fields n field_definitions existing_fields :
  keeps coherent any any (check_fields n field_definitions existing_fields).
Proof.
  induction field_definitions as [|fd rest IH]; simpl;
    keeps_with ltac:(first [exact IH | coherent_leaf']).
Qed.

Lemma coherent_get_loaded_collections_loop names : ∀ loaded,
  keeps coherent any any (get_loaded_collections_loop names loaded).
Proof.
  induction names as [|name names IH]; intros loaded; simpl;
    unfold Collection_load_state;
    keeps_with ltac:(first [apply IH | coherent_leaf']).
Qed.

(** X6: every operation of the client keeps the cache coherent: when every
    cached handle names the collection it is cached under, it still does
    after [connect], [close], [create_collection], [insert], [query],
    [search], [get_latest_memory], [delete], [drop_collection], the schema
    check, [list_collections] and [get_loaded_collections], whatever the
    engine rejects and whether the operation succeeds or not. *)
Theorem operations_keep_cache_coherent w :
  coherent w →
  coherent (connect w).2
  ∧ coherent (close w).2
  ∧ (∀ n schema, coherent (create_collection n schema w).2)
  ∧ (∀ n data, coherent (insert n data w).2)
  ∧ (∀ n filters output_fields, coherent (query n filters output_fields w).2)
  ∧ (∀ n query_vector top_k filters,
       coherent (search n query_vector top_k filters w).2)
  ∧ (∀ n limit, coherent (get_latest_memory n limit w).2)
  ∧ (∀ n expr, coherent (delete n expr w).2)
  ∧ (∀ n, coherent (drop_collection n w).2)
  ∧ (∀ n expected_schema,
       coherent (check_collection_schema_consistency n expected_schema w).2)
  ∧ coherent (list_collections w).2
  ∧ coherent (get_loaded_collections w).2.
Proof.
  intros Hco.
  assert (∀ A (m : M A), keeps coherent any any m → coherent (m w).2) as Hk.
  { intros A m Hm. by destruct (Hm w Hco) as (H & _). }
  split_and!; intros; apply Hk.
  - keeps_with coherent_leaf'.
  - keeps_with coherent_leaf'.
  - apply coherent_create_collection.
  - unfold insert, insert_try. keeps_with coherent_leaf'.
  - unfold query, query_try. keeps_with coherent_leaf'.
  - unfold search, search_try. keeps_with coherent_leaf'.
  - unfold get_latest_memory, get_latest_memory_try. keeps_with coherent_leaf'.
  - unfold delete, delete_try. keeps_with coherent_leaf'.
  - unfold drop_collection, drop_collection_try. keeps_with coherent_leaf'.
  - unfold check_collection_schema_consistency,
      check_collection_schema_consistency_try.
    keeps_with ltac:(first [apply coherent_check_fields | coherent_leaf']).
  - keeps_with coherent_leaf'.
  - unfold get_loaded_collections.
    keeps_with ltac:(first [apply coherent_get_loaded_collections_loop
                           | coherent_leaf']).
Qed.

(** ** Teardown and enumeration *)

(** X3: [close] never raises and never touches the cache or the engine's
    collections.  Without a connection it does nothing at all; with one it
    issues the disconnect, and the connection is down afterwards unless the
    engine rejects the disconnect, which is logged and absorbed. *)
Theorem close_is_best_effort w :
  ∃ w', close w = (Ok tt, w')
    ∧ collections w' = collections w ∧ remote w' = remote w
    ∧ if has_connection w then
        calls w' = calls w ++ issued [Disconnect connection_alias]
        ∧ if fault (calls w) (Disconnect connection_alias)
          then has_connection w' = true
               ∧ length (logs w') = S (length (logs w))
               ∧ log_level <$> last (logs w') = Some ERROR
          else has_connection w' = false
      else w' = w.
Proof.
  cbv [close try_except connections_has_connection connections_disconnect bind
       get_world ret pymilvus modify logger].
  destruct (has_connection w) eqn:Hc; simpl; rewrite ?Hc; simpl; [|by exists w].
  destruct (fault (calls w) (Disconnect connection_alias)); simpl.
  - eexists. split; [reflexivity|]. simpl.
    rewrite ?Hc, length_app, last_snoc. simpl. split_and!; try done. lia.
  - eexists. split; [reflexivity|]. simpl. by rewrite ?Hc.
Qed.

(** X5: [list_collections] never raises: over a live connection, when the
    engine answers, it returns the names of the remote collections, each
    once; without a connection or when the engine rejects the call it logs
    an error and returns the empty list. *)
Theorem list_collections_or_nothing w :
  ∃ names w', list_collections w = (Ok names, w')
    ∧ collections w' = collections w ∧ remote w' = remote w
    ∧ if has_connection w && negb (fault (calls w) ListCollections) then
        (∀ n, n ∈ names ↔ is_Some (remote w !! n)) ∧ NoDup names
        ∧ logs w' = logs w
      else names = [] ∧ log_level <$> last (logs w') = Some ERROR.
Proof.
  cbv [list_collections try_except utility_list_collections bind get_world ret
       pymilvus logger modify].
  destruct (has_connection w) eqn:Hc; simpl; rewrite ?Hc; simpl.
  - destruct (fault (calls w) ListCollections); simpl.
    + eexists _, _. split; [reflexivity|]. simpl. by rewrite last_snoc.
    + eexists _, _. split; [reflexivity|]. simpl. split_and!; try done.
      * intros n. rewrite list_elem_of_fmap. split.
        -- intros ([k c] & -> & Hin). apply elem_of_map_to_list in Hin. by exists c.
        -- intros [c Hn]. exists (n, c). split; [done|].
           by apply elem_of_map_to_list.
      * apply NoDup_fst_map_to_list.
  - eexists _, _. split; [reflexivity|]. simpl. by rewrite last_snoc.
Qed.

Lemma Collection_load_state_run col w c :
  remote w !! col_name col = Some c →
  Collection_load_state col w = (load_state_attribute c, w).
Proof.
  intros Hc. cbv [Collection_load_state the_collection bind get_world ret from_res].
  rewrite Hc. by destruct (load_state_attribute c).
Qed.

Lemma get_loaded_collections_loop_run names : ∀ loaded w,
  reliable → up w → (∀ n, n ∈ names → is_Some (remote w !! n)) →
  (∀ n c, n ∈ names → remote w !! n = Some c →
          ∃ v, load_state_attribute c = Ok v) →
  ∃ w', get_loaded_collections_loop names loaded w
        = (Ok (loaded ++ filter (λ n, reads_loaded_in (remote w) n = true) names),
           w')
    ∧ up w' ∧ remote w' = remote w ∧ collections w' = collections w.
Proof.
  induction names as [|name names IH]; intros loaded w Hr Hup Hex Hok; simpl.
  - exists w. by rewrite app_nil_r.
  - destruct (Hex name) as [c Hc]; [by left|]. unfold up in Hup.
    destruct (Hok name c) as [v Hv]; [by left | done |].
    step Collection_open_run.
    erewrite bind_run
      by (rewrite Collection_load_state_run with (c := c) by done; by rewrite Hv).
    cbv beta.
    match goal with |- context [get_loaded_collections_loop names ?l ?w1] =>
      destruct (IH l w1 Hr) as (w' & E & Hup' & Hrem & Hcol);
        [done | by intros n Hn; apply Hex; right
        | by intros n c' Hn; apply Hok; right |] end.
    exists w'. rewrite E. simpl in *. split; [|done]. do 2 f_equal.
    assert (reads_loaded_in (remote w) name = bool_decide (v = PStr "Loaded"))
      as Hil by (unfold reads_loaded_in; by rewrite Hc, Hv).
    rewrite filter_cons. destruct (bool_decide (v = PStr "Loaded")); simpl.
    + rewrite decide_True by done. by rewrite <- (assoc_L (++)).
    + rewrite decide_False by (by rewrite Hil). done.
Qed.

Lemma get_loaded_collections_loop_raises names : ∀ loaded w,
  reliable → up w → (∀ n, n ∈ names → is_Some (remote w !! n)) →
  (∃ n c e, n ∈ names ∧ remote w !! n = Some c
            ∧ load_state_attribute c = Raise e) →
  ∃ e' w', get_loaded_collections_loop names loaded w = (Raise e', w').
Proof.
  induction names as [|name names IH];
    intros loaded w Hr Hup Hex (n & c & e & Hin & Hn & He); simpl.
  - by apply elem_of_nil in Hin.
  - destruct (Hex name) as [c0 Hc0]; [by left|]. unfold up in Hup.
    step Collection_open_run.
    destruct (load_state_attribute c0) as [v|e0] eqn:Hv.
    + erewrite bind_run
        by (rewrite Collection_load_state_run with (c := c0) by done;
            by rewrite Hv).
      cbv beta. apply IH; [done | done | by intros m Hm; apply Hex; right |].
      apply elem_of_cons in Hin as [->|Hin]; [simpl in *; congruence|].
      by exists n, c, e.
    + erewrite bind_raise
        by (rewrite Collection_load_state_run with (c := c0) by done;
            by rewrite Hv).
      by eexists _, _.
Qed.

(** X4: [get_loaded_collections] decides by the attribute [load_state] of
    each handle, compared with the [str] "Loaded".  Over a live connection
    to a reliable engine: when the read of the attribute succeeds for every
    remote collection, it returns the names of the remote collections whose
    attribute is that [str], each once, and changes neither the collections
    nor the cache; when the read raises for some remote collection, the
    exception is not caught and [get_loaded_collections] raises.  Without a
    connection it returns the empty list, the failure of the enumeration
    being absorbed by [list_collections]. *)
Theorem get_loaded_collections_by_attribute w :
  reliable →
  if has_connection w then
    ((∀ n c, remote w !! n = Some c → ∃ v, load_state_attribute c = Ok v) →
     ∃ names w', get_loaded_collections w = (Ok names, w')
       ∧ (∀ n, n ∈ names ↔ reads_loaded w n) ∧ NoDup names
       ∧ remote w' = remote w ∧ collections w' = collections w)
    ∧ (∀ n c e, remote w !! n = Some c → load_state_attribute c = Raise e →
       ∃ e' w', get_loaded_collections w = (Raise e', w'))
  else
    ∃ w', get_loaded_collections w = (Ok [], w')
      ∧ calls w' = calls w ++ [{| call_up := false; call_event := ListCollections |}].
Proof.
  intros Hr. unfold get_loaded_collections.
  destruct (has_connection w) eqn:Hc.
  - assert (list_collections w
            = (Ok (map_to_list (remote w)).*1, add_call ListCollections w)) as E.
    { cbv [list_collections try_except utility_list_collections bind get_world
           ret pymilvus]. by rewrite Hc, Hr. }
    rewrite (bind_run _ _ _ _ _ E).
    assert (∀ n, n ∈ (map_to_list (remote w)).*1 ↔ is_Some (remote w !! n))
      as Hnames.
    { intros n. rewrite list_elem_of_fmap. split.
      - intros ([k c] & -> & Hin). apply elem_of_map_to_list in Hin. by exists c.
      - intros [c Hn]. exists (n, c). split; [done|].
        by apply elem_of_map_to_list. }
    split.
    + intros Hok.
      destruct (get_loaded_collections_loop_run (map_to_list (remote w)).*1 []
                  (add_call ListCollections w)) as (w' & E' & _ & Hrem & Hcol);
        [done | done | by intros n Hn; apply Hnames | by intros n c _; apply Hok |].
      eexists _, w'. split; [exact E'|]. simpl in *. split_and!; try done.
      * intros n. rewrite list_elem_of_filter, Hnames.
        unfold reads_loaded_in, reads_loaded. split.
        -- intros [Hl [c Hn]]. rewrite Hn in Hl. exists c. split; [done|].
           destruct (load_state_attribute c) as [v|]; [|done].
           by apply bool_decide_eq_true in Hl as ->.
        -- intros (c & Hn & Hl). rewrite Hn, Hl. split; [|by eexists].
           by apply bool_decide_eq_true.
      * apply NoDup_filter, NoDup_fst_map_to_list.
    + intros n c e Hn He.
      apply get_loaded_collections_loop_raises; [done | done | |].
      * by intros m Hm; apply Hnames.
      * exists n, c, e. split_and!; [|done|done]. apply Hnames. by rewrite Hn.
  - eexists. split.
    { cbv [list_collections try_except utility_list_collections bind get_world
           ret pymilvus logger modify]. rewrite Hc. simpl. reflexivity. }
    simpl. by rewrite Hc.
Qed.

(** ** The refresh of the cache *)

Lemma refreshed_idemp c : refreshed (refreshed c) = refreshed c.
Proof. unfold refreshed. by destruct c as [? [|? ?] ? ? ?]. Qed.

Lemma connect_load_run n w :
  reliable → up w →
  ∃ w', connect_load n w = (Ok tt, w') ∧ up w'
    ∧ (∀ m, remote w' !! m
            = if decide (m = n) then refreshed <$> remote w !! n
              else remote w !! m)
    ∧ (∀ m, collections w' !! m
            = if decide (m = n) then refreshed_entry w n
              else collections w !! m).
Proof.
  intros Hr Hup. unfold up in *. unfold connect_load, try_except.
  step utility_has_collection_run.
  unfold refreshed_entry, refreshed, indexed.
  destruct (remote w !! n) as [c|] eqn:Hn; simpl.
  - step Collection_open_run. unfold Collection_indexes.
    step pymilvus_run. step the_collection_run. pure.
    destruct (rc_indexes c) as [|i idx] eqn:Hi.
    + eexists. split; [reflexivity|]. simpl. split; [done|].
      split; intros m; case_decide; by subst.
    + step Collection_load_run. pure.
      eexists. split; [reflexivity|]. simpl. split; [done|].
      split; intros m; case_decide; subst;
        by rewrite ?lookup_insert_eq, ?lookup_insert_ne.
  - eexists. split; [reflexivity|]. simpl. split; [done|].
    split; intros m; case_decide; by subst.
Qed.

Lemma connect_loads_run names : ∀ w,
  reliable → up w →
  ∃ w', for_each names connect_load w = (Ok tt, w') ∧ up w'
    ∧ (∀ m, remote w' !! m
            = if decide (m ∈ names) then refreshed <$> remote w !! m
              else remote w !! m)
    ∧ (∀ m, collections w' !! m
            = if decide (m ∈ names) then refreshed_entry w m
              else collections w !! m).
Proof.
  induction names as [|n names IH]; intros w Hr Hup; cbn [for_each].
  - exists w. split; [done|]. split; [done|].
    split; intros m; by rewrite decide_False by apply not_elem_of_nil.
  - destruct (connect_load_run n w Hr Hup) as (w1 & E & Hup1 & Hrem1 & Hcol1).
    destruct (IH w1 Hr Hup1) as (w2 & E2 & Hup2 & Hrem2 & Hcol2).
    exists w2. rewrite (bind_run _ _ _ _ _ E). split; [done|]. split; [done|].
    split; intros m.
    + rewrite Hrem2, !Hrem1.
      destruct (decide (m ∈ names)) as [Hin|Hin], (decide (m = n)) as [->|Hne].
      * rewrite decide_True by (by left).
        destruct (remote w !! n); simpl; [|done]. by rewrite refreshed_idemp.
      * by rewrite decide_True by (by right).
      * by rewrite decide_True by (by left).
      * rewrite decide_False; [done|]. by intros [?|?]%elem_of_cons.
    + rewrite Hcol2. unfold refreshed_entry at 1. rewrite Hrem1, !Hcol1.
      destruct (decide (m ∈ names)) as [Hin|Hin], (decide (m = n)) as [->|Hne].
      * rewrite decide_True by (by left). unfold refreshed_entry.
        destruct (remote w !! n) as [c|]; simpl; [|done].
        unfold refreshed, indexed, handle_of.
        by destruct c as [? [|? ?] ? ? ?].
      * rewrite decide_True by (by right). unfold refreshed_entry. done.
      * by rewrite decide_True by (by left).
      * rewrite decide_False; [done|]. by intros [?|?]%elem_of_cons.
Qed.

Lemma connections_connect_run a h p w :
  reliable →
  connections_connect a h p w
  = (Ok tt, set_has_connection true (add_call (Connect a h p) w)).
Proof. intros Hr. unfold connections_connect. by rewrite Hr. Qed.

(** X1: [connect] to a reliable engine rebuilds the cache from the engine:
    afterwards the connection is up, the cache holds a fresh handle for
    every remote collection that has an index and nothing else (what it held
    before is dropped), every such collection is loaded, and a collection
    without an index is neither loaded nor cached. *)
Theorem connect_rebuilds_cache w :
  reliable →
  ∃ w', connect w = (Ok tt, w') ∧ up w'
    ∧ (∀ n, collections w' !! n
            = match remote w !! n with
              | Some c => if indexed c then Some (handle_of n c) else None
              | None => None
              end)
    ∧ (∀ n, remote w' !! n = refreshed <$> remote w !! n)
    ∧ (∀ n c, remote w !! n = Some c → indexed c = false →
              remote w' !! n = Some c ∧ collections w' !! n = None).
Proof.
  intros Hr. unfold connect, try_except, connect_try. pure.
  step connections_connect_run. pure.
  assert (∀ w0, up w0 →
            list_collections w0
            = (Ok (map_to_list (remote w0)).*1, add_call ListCollections w0)) as El.
  { intros w0 Hup0. unfold up in Hup0.
    cbv [list_collections try_except utility_list_collections bind get_world
         ret pymilvus]. by rewrite Hup0, Hr. }
  step_with ltac:(apply El; reflexivity). pure.
  match goal with |- context [for_each ?l connect_load ?w1] =>
    destruct (connect_loads_run l w1 Hr eq_refl) as (w' & E & Hup & Hrem & Hcol)
  end.
  rewrite E. exists w'. split; [done|]. split; [done|].
  simpl in Hrem, Hcol.
  assert (∀ n, n ∈ (map_to_list (remote w)).*1 ↔ is_Some (remote w !! n)) as Hnames.
  { intros n. rewrite list_elem_of_fmap. split.
    - intros ([k c] & -> & Hin). apply elem_of_map_to_list in Hin. by exists c.
    - intros [c Hn]. exists (n, c). split; [done|]. by apply elem_of_map_to_list. }
  assert (∀ n, collections w' !! n
               = match remote w !! n with
                 | Some c => if indexed c then Some (handle_of n c) else None
                 | None => None
                 end) as Hcache.
  { intros n. rewrite Hcol. unfold refreshed_entry. simpl.
    rewrite lookup_empty. case_decide as Hin; [done|].
    destruct (remote w !! n) eqn:Hn; [|done].
    exfalso. apply Hin, Hnames. by rewrite Hn. }
  assert (∀ n, remote w' !! n = refreshed <$> remote w !! n) as Hremote.
  { intros n. rewrite Hrem. case_decide as Hin; [done|].
    destruct (remote w !! n) eqn:Hn; [|done].
    exfalso. apply Hin, Hnames. by rewrite Hn. }
  split_and!; try done.
  intros n c Hn Hi. rewrite Hremote, Hcache, Hn. simpl.
  unfold refreshed. by rewrite Hi.
Qed.

(** ** How the operations compose *)

Lemma with_indexes_nil c : with_indexes [] c = c.
Proof. destruct c. unfold with_indexes. simpl. by rewrite app_nil_r. Qed.

Lemma with_indexes_app l1 l2 c :
  with_indexes l2 (with_indexes l1 c) = with_indexes (l1 ++ l2) c.
Proof. unfold with_indexes. simpl. by rewrite (assoc_L (++)). Qed.

Lemma create_field_index_state n fd w c col :
  reliable → up w →
  collections w !! n = Some col → col_name col = n → remote w !! n = Some c →
  well_formed fd = true →
  ∃ w', create_field_index n fd w = (Ok tt, w')
    ∧ up w' ∧ clock w' = clock w ∧ collections w' = collections w
    ∧ remote w'
      = <[n := with_indexes (option_list (provisioned_index fd)) c]> (remote w).
Proof.
  intros Hr Hup Hcol Hcn Hn Hwf. subst n.
  unfold create_field_index, provisioned_index, well_formed in *.
  destruct (fd_name fd) as [field_name|]; [|done].
  destruct (fd_dtype fd) as [t|]; [|done]. simpl.
  destruct (decide (t = FLOAT_VECTOR)) as [->|Hne].
  - pure. simpl. unfold provisioned_params, cached.
    destruct (fd_index_params fd) as [params|]; simpl;
      [destruct (dict_truthy params) eqn:Ht; simpl|];
      (eexists; split;
       [repeat pure; simpl; rewrite Hcol; pure;
        step Collection_create_index_run; reflexivity | done]).
  - pure. rewrite bool_decide_eq_false_2 by done.
    exists w. split; [done|]. split_and!; try done.
    destruct t; simpl; by rewrite ?with_indexes_nil, insert_id.
Qed.

Lemma create_field_indexes_state n fds : ∀ w c col,
  reliable → up w →
  collections w !! n = Some col → col_name col = n → remote w !! n = Some c →
  forallb well_formed fds = true →
  ∃ w', for_each fds (create_field_index n) w = (Ok tt, w')
    ∧ up w' ∧ clock w' = clock w ∧ collections w' = collections w
    ∧ remote w' = <[n := with_indexes (omap provisioned_index fds) c]> (remote w).
Proof.
  induction fds as [|fd fds IH]; simpl; intros w c col Hr Hup Hcol Hcn Hn Hwf.
  - exists w. by rewrite with_indexes_nil, insert_id.
  - apply andb_prop in Hwf as [Hfd Hfds].
    destruct (create_field_index_state n fd w c col)
      as (w1 & E & Hup1 & Hclk1 & Hcol1 & Hrem1); try done.
    destruct (IH w1 (with_indexes (option_list (provisioned_index fd)) c) col)
      as (w2 & E2 & Hup2 & Hclk2 & Hcol2 & Hrem2); try done.
    { by rewrite Hcol1. }
    { by rewrite Hrem1, lookup_insert_eq. }
    exists w2. rewrite (bind_run _ _ _ _ _ E). split; [done|].
    split_and!; try congruence.
    rewrite Hrem2, Hrem1, insert_insert_eq, with_indexes_app.
    by destruct (provisioned_index fd).
Qed.

(** A successful creation, by its final state. *)
Lemma create_collection_run w n schema field_definitions :
  reliable → up w → remote w !! n = None →
  sd_fields schema = Some field_definitions →
  forallb well_formed field_definitions = true →
  ∃ fs w', (∀ w0, map_M field_schema field_definitions w0 = (Ok fs, w0))
    ∧ create_collection n schema w = (Ok tt, w')
    ∧ up w' ∧ clock w' = clock w
    ∧ collections w'
      = <[n := {| col_name := n;
                  col_schema := {| fields := fs;
                     description := default "" (sd_description schema) |} |}]>
          (collections w)
    ∧ remote w'
      = <[n := flushed (with_indexes (omap provisioned_index field_definitions)
                 (created {| fields := fs;
                    description := default "" (sd_description schema) |}))]>
          (remote w).
Proof.
  intros Hr Hup Hn Hfields Hwf.
  destruct (map_M_field_schema_run _ Hwf) as (fs & Hfs).
  exists fs. unfold up in Hup.
  unfold create_collection, try_except, create_collection_try.
  step utility_has_collection_run. rewrite Hn, Hfields. simpl. pure.
  rewrite (bind_run _ _ _ _ _ (Hfs _)). cbv zeta.
  step Collection_new_run. repeat pure.
  match goal with |- context [bind (for_each _ _) _ ?w3] =>
    destruct (create_field_indexes_state n field_definitions w3
                (created {| fields := fs;
                            description := default "" (sd_description schema) |})
                {| col_name := n;
                   col_schema := {| fields := fs;
                                    description := default "" (sd_description schema) |} |})
      as (w4 & E & Hup4 & Hclk4 & Hcol4 & Hrem4);
      [done | done | by simpl; rewrite lookup_insert_eq | done
      | by simpl; rewrite lookup_insert_eq | done |]
  end.
  rewrite (bind_run _ _ _ _ _ E). unfold cached. pure.
  rewrite Hcol4. simpl. rewrite lookup_insert_eq. pure.
  erewrite Collection_flush_run;
    [|done|done|by rewrite Hrem4; simpl; rewrite lookup_insert_eq].
  eexists. split; [done|]. split; [reflexivity|]. simpl.
  rewrite Hrem4, Hcol4, Hclk4. simpl. by rewrite !insert_insert_eq.
Qed.

(** ** The empty batch *)

Lemma insert_try_empty n w :
  insert_try n [] w
  = (_ensure_connection;; _ ← _get_collection n;
     raise (IndexError "list index out of range")) w.
Proof.
  unfold insert_try, bind.
  destruct (_ensure_connection w) as [[[]|e] w1]; [|done].
  destruct (_get_collection n w1) as [[col|e] w2]; done.
Qed.

Lemma keeps_ext {A} I P (Q : A → Prop) (m m' : M A) :
  (∀ w, m w = m' w) → keeps I P Q m' → keeps I P Q m.
Proof. intros E Hm w Hw. rewrite E. by apply Hm. Qed.

Lemma stored_insert_empty S n :
  keeps (λ w, stored w = S) (λ c, ¬ writes_rows c) any (insert n []).
Proof.
  unfold insert. apply keeps_try_except.
  - eapply keeps_ext; [apply insert_try_empty|].
    keeps_with ltac:(first [by unfold writes_rows; simpl; intros; tauto
                           | stored_leaf]).
  - intros e. keeps_with stored_leaf.
Qed.

(** X8: [insert] of an empty batch.  The body always raises, at [data[0]]
    when nothing failed before, and [insert] absorbs the exception into an
    error entry of the log: it returns normally, issues no insert, no flush
    and no delete, and every remote collection keeps its schema, its
    indexes and its rows, whatever the engine rejects. *)
Theorem insert_empty_batch w n :
  (∃ e w1, insert_try n [] w = (Raise e, w1)
     ∧ insert n [] w = (Ok tt, add_log ERROR ("插入数据失败: " ++ str_exn e) w1))
  ∧ stored (insert n [] w).2 = stored w
  ∧ ∃ cs, calls (insert n [] w).2 = calls w ++ cs
          ∧ Forall (λ c, ¬ writes_rows c) cs.
Proof.
  split.
  - unfold insert, try_except. rewrite insert_try_empty. unfold bind.
    destruct (_ensure_connection w) as [[[]|e] w1]; [|by eexists _, _].
    destruct (_get_collection n w1) as [[col|e] w2]; by eexists _, _.
  - destruct (stored_insert_empty (stored w) n w eq_refl) as (HI & Hcs & _).
    done.
Qed.

(** ** The schema check fails closed *)

Lemma check_field_raises n fd existing_fields w :
  fd_name fd = None ∨ fd_dtype fd = None →
  ∃ k, check_field n fd existing_fields w = (Raise (KeyError k), w).
Proof.
  intros Hbad. unfold check_field.
  destruct (fd_name fd) as [field_name|]; simpl; [|by eexists].
  destruct Hbad as [|Hd]; [done|]. rewrite Hd. by eexists.
Qed.

Lemma check_fields_lacking n fds existing_fields :
  (∃ fd, fd ∈ fds ∧ (fd_name fd = None ∨ fd_dtype fd = None)) →
  ∀ w, (check_fields n fds existing_fields w).1 ≠ Ok true.
Proof.
  induction fds as [|fd0 fds IH]; intros (fd & Hin & Hbad) w.
  - by apply elem_of_nil in Hin.
  - simpl. apply elem_of_cons in Hin as [->|Hin].
    + destruct (check_field_raises n fd0 existing_fields w Hbad) as (k & E).
      by rewrite (bind_raise _ _ _ _ _ E).
    + unfold bind at 1.
      destruct (check_field n fd0 existing_fields w) as [[[|]|e] w1]; simpl;
        [|done|done].
      apply IH. eauto.
Qed.

Lemma absent_ensure_connection n :
  keeps (λ w, remote w !! n = None) any any _ensure_connection.
Proof.
  keeps_with ltac:(first
    [ by unfold any; intros; simpl in *;
         repeat match goal with
         | |- <[_:=_]> _ !! _ = None => apply lookup_insert_None; split; [done|]
         | H : ?m !! ?k = Some _ |- _ ≠ _ => intros <-; congruence
         end; eauto ]).
Qed.


Lemma check_absorbs n expected_schema w :
  (check_collection_schema_consistency_try n expected_schema w).1 ≠ Ok true →
  (check_collection_schema_consistency n expected_schema w).1 = Ok false.
Proof.
  unfold check_collection_schema_consistency, try_except.
  destruct (check_collection_schema_consistency_try n expected_schema w)
    as [[[|]|e] w1]; simpl; [done | done | intros _; by destruct e].
Qed.

(** X11: the schema check fails closed.  It returns false for a name the
    engine does not know, and it returns false, whatever the collection is,
    when the expected schema has no "fields" key, has no field, or has a
    field definition without "name" or without "dtype" -- also when the
    connection cannot be established or the engine rejects a call. *)
Theorem check_fails_closed w n expected_schema :
  (remote w !! n = None →
   (check_collection_schema_consistency n expected_schema w).1 = Ok false)
  ∧ (match sd_fields expected_schema with
     | None => True
     | Some field_definitions =>
         field_definitions = []
         ∨ ∃ fd, fd ∈ field_definitions ∧ (fd_name fd = None ∨ fd_dtype fd = None)
     end →
     (check_collection_schema_consistency n expected_schema w).1 = Ok false).
Proof.
  split; intros H; apply check_absorbs;
    unfold check_collection_schema_consistency_try.
  - destruct (absent_ensure_connection n w H) as (Hn1 & _).
    unfold bind at 1.
    destruct (_ensure_connection w) as [[[]|e] w1]; simpl in Hn1; [|done].
    cbv [utility_has_collection pymilvus bind get_world ret logger modify].
    destruct (negb (has_connection w1)); [done|].
    destruct (fault (calls w1) (HasCollection n)); [done|]. simpl.
    by rewrite Hn1.
  - unfold bind at 1.
    destruct (_ensure_connection w) as [[[]|e] w1]; [|done].
    destruct (utility_has_collection_any n w1) as (r & E).
    destruct r as [[|]|e]; [|by rewrite (bind_run _ _ _ _ _ E)
                            |by rewrite (bind_raise _ _ _ _ _ E)].
    rewrite (bind_run _ _ _ _ _ E). cbv beta iota delta [negb].
    unfold bind at 1.
    destruct (Collection_open n _) as [[col|e] w3]; [|done].
    cbv zeta. set (ex := existing_fields_of (fields (col_schema col))).
    destruct (sd_fields expected_schema) as [fds|].
    2: { by destruct (bool_decide (ex = ∅)). }
    destruct H as [->|Hbad].
    { by destruct (bool_decide (ex = ∅)). }
    destruct fds as [|fd0 fds];
      [by destruct Hbad as (? & ?%elem_of_nil & _)|].
    destruct (bool_decide (ex = ∅)); [done|].
    repeat (pure; cbv beta iota delta [negb list_truthy subscript]).
    match goal with |- context [bind (check_fields ?a ?b ?c) _ ?w4] =>
      pose proof (check_fields_lacking a b c Hbad w4) as Hl;
      unfold bind at 1;
      destruct (check_fields a b c w4) as [[[|]|e] w5]; simpl in *; done
    end.
Qed.


(** ** Creation, then the schema check or the drop *)

Lemma field_schema_matches fd f w w' :
  field_schema fd w = (Ok f, w') → field_matches fd f.
Proof.
  unfold field_schema, field_matches.
  destruct (fd_name fd) as [field_name|]; [|done].
  destruct (fd_dtype fd) as [t|]; [|done]. simpl.
  destruct t; simpl;
    try (intros [= <- _]; simpl; split_and!; done).
  - destruct (fd_max_length fd); [|done]. intros [= <- _]. by simpl.
  - destruct (fd_dim fd); [|done]. intros [= <- _]. by simpl.
Qed.

Lemma map_M_field_schema_matches fds : ∀ fs w w',
  map_M field_schema fds w = (Ok fs, w') → Forall2 field_matches fds fs.
Proof.
  induction fds as [|fd fds IH]; simpl; intros fs w w'.
  - intros [= <- _]. constructor.
  - unfold bind at 1.
    destruct (field_schema fd w) as [[f|e] w1] eqn:E; [|done].
    unfold bind at 1.
    destruct (map_M field_schema fds w1) as [[fs'|e] w2] eqn:E2; [|done].
    intros [= <- _]. constructor; [by eapply field_schema_matches | by eapply IH].
Qed.

Lemma matches_schema_exactly fds fs :
  Forall2 field_matches fds fs → schema_exactly fs fds.
Proof.
  induction 1 as [|fd f fds fs Hm _ [IH1 IH2]]; split.
  - by intros e ?%elem_of_nil.
  - by intros a ?%elem_of_nil.
  - intros e [->|He]%elem_of_cons.
    + exists f. split; [by left | done].
    + destruct (IH1 e He) as (a & Ha & Hma). exists a. split; [by right | done].
  - intros a [->|Ha]%elem_of_cons.
    + exists fd. split; [by left | apply Hm].
    + destruct (IH2 a Ha) as (e & He & Hn). exists e. split; [by right | done].
Qed.

Lemma matches_names fds fs :
  Forall2 field_matches fds fs → fd_name <$> fds = Some <$> (fs_name <$> fs).
Proof.
  induction 1 as [|fd f fds fs Hm _ IH]; [done|].
  rewrite !fmap_cons, IH. by destruct Hm as (-> & _).
Qed.

(** X9: a collection passes the schema check of the schema it was created
    from.  Over a live connection to a reliable engine, for a name the
    engine does not know and a
    schema with at least one field, whose definitions have the keys their
    dtype requires and distinct names, [create_collection] succeeds and the
    check of the same schema then returns true. *)
Theorem create_then_check_consistent w n schema field_definitions :
  reliable → up w → remote w !! n = None →
  sd_fields schema = Some field_definitions → field_definitions ≠ [] →
  forallb well_formed field_definitions = true →
  NoDup (fd_name <$> field_definitions) →
  ∃ w', create_collection n schema w = (Ok tt, w')
    ∧ (check_collection_schema_consistency n schema w').1 = Ok true.
Proof.
  intros Hr Hup Hn Hfields Hne Hwf Hnd.
  destruct (create_collection_run w n schema field_definitions)
    as (fs & w' & Hfs & E & Hup' & _ & _ & Hrem); try done.
  exists w'. split; [done|].
  pose proof (map_M_field_schema_matches _ _ _ _ (Hfs w)) as Hm.
  assert (∃ c', remote w' !! n = Some c' ∧ fields (rc_schema c') = fs)
    as (c' & Hn' & Hfs').
  { eexists. split; [by rewrite Hrem, lookup_insert_eq | done]. }
  destruct (check_run w' n c' schema field_definitions)
    as (b & w'' & E2 & Hiff); [done | done | | done |].
  { rewrite Hfs'. rewrite (matches_names _ _ Hm) in Hnd.
    by apply NoDup_fmap_1 in Hnd. }
  rewrite E2. simpl. f_equal. apply Hiff. split; [done|]. rewrite Hfs'.
  by apply matches_schema_exactly.
Qed.

Lemma drop_collection_cached_run w n col c :
  reliable → up w →
  collections w !! n = Some col → col_name col = n → remote w !! n = Some c →
  ∃ w', drop_collection n w = (Ok tt, w') ∧ up w'
    ∧ collections w' = base.delete n (collections w)
    ∧ remote w' = base.delete n (remote w).
Proof.
  intros Hr Hup Hcol Hcn Hn. unfold up in *. subst n.
  unfold drop_collection, drop_collection_try.
  eexists. split.
  { apply try_except_run.
    step utility_has_collection_run. rewrite Hn. simpl.
    pure. simpl. rewrite Hcol.
    step Collection_release_run.
    step utility_drop_collection_run. pure. simpl. rewrite Hcol.
    pure. reflexivity. }
  simpl. by rewrite delete_insert_eq.
Qed.

(** X10: creation and drop are inverse on the engine.  Over a live
    connection to a reliable engine,
    for a name the engine does not know and a schema whose definitions have
    the keys their dtype requires, [create_collection] followed by
    [drop_collection] leaves the remote collections as they were and the
    cache without the name; resolving the name afterwards raises the
    ValueError of a collection that does not exist. *)
Theorem create_then_drop_restores w n schema field_definitions :
  reliable → up w → remote w !! n = None →
  sd_fields schema = Some field_definitions →
  forallb well_formed field_definitions = true →
  ∃ w1 w2, create_collection n schema w = (Ok tt, w1)
    ∧ is_Some (remote w1 !! n) ∧ is_Some (collections w1 !! n)
    ∧ drop_collection n w1 = (Ok tt, w2)
    ∧ remote w2 = remote w
    ∧ collections w2 = base.delete n (collections w)
    ∧ (_get_collection n w2).1
      = Raise (ValueError ("Collection '" ++ n ++ "' does not exist.")).
Proof.
  intros Hr Hup Hn Hfields Hwf.
  destruct (create_collection_run w n schema field_definitions)
    as (fs & w1 & _ & E & Hup1 & _ & Hcol1 & Hrem1); try done.
  edestruct (drop_collection_cached_run w1 n)
    as (w2 & E2 & Hup2 & Hcol2 & Hrem2); [done | done | | | |].
  { by rewrite Hcol1, lookup_insert_eq. }
  { done. }
  { by rewrite Hrem1, lookup_insert_eq. }
  exists w1, w2.
  assert (remote w2 = remote w) as Hrem
    by (by rewrite Hrem2, Hrem1, delete_insert_eq, delete_id).
  assert (collections w2 = base.delete n (collections w)) as Hcol
    by (by rewrite Hcol2, Hcol1, delete_insert_eq).
  split_and!; try done.
  - by rewrite Hrem1, lookup_insert_eq.
  - by rewrite Hcol1, lookup_insert_eq.
  - rewrite get_collection_not_found_run; [done | done | done | |].
    + by rewrite Hcol, lookup_delete_eq.
    + by rewrite Hrem.
Qed.


(** ** The context manager *)

(** X2: a [with] block over the client.  When the engine rejects the
    connection, [__enter__] raises and the connection state is what it was,
    so the block is not entered.  Otherwise [__enter__] returns with the
    connection up; [__exit__] then never raises and issues the disconnect,
    after which the connection is down unless the engine rejected the
    disconnect; the cache keeps the handles it had inside the block and no
    remote collection changes. *)
Theorem with_block_lifecycle w :
  if fault (calls w) (Connect connection_alias (host w) (port w)) then
    ∃ e w1, __enter__ w = (Raise e, w1) ∧ has_connection w1 = has_connection w
  else
    ∃ w1 w2, __enter__ w = (Ok tt, w1) ∧ up w1
      ∧ __exit__ w1 = (Ok tt, w2)
      ∧ calls w2 = calls w1 ++ issued [Disconnect connection_alias]
      ∧ collections w2 = collections w1 ∧ remote w2 = remote w1
      ∧ has_connection w2 = fault (calls w1) (Disconnect connection_alias).
Proof.
  unfold __enter__, __exit__. pose proof (connect_spec w) as Hc. cbv zeta in Hc.
  destruct (fault (calls w) (Connect connection_alias (host w) (port w))).
  - destruct Hc as (w1 & E & _ & Hup & _). by eexists _, _.
  - destruct Hc as (w1 & cs & E & Hup & _). exists w1. unfold up in Hup.
    cbv [close try_except connections_has_connection connections_disconnect bind
         get_world ret pymilvus modify logger].
    rewrite Hup. simpl. rewrite Hup. simpl.
    destruct (fault (calls w1) (Disconnect connection_alias)); simpl;
      (eexists; split_and!; [done | done | reflexivity | by simpl; rewrite ?Hup ..]).
Qed.

End Client.

(** * The properties on the example data *)

Lemma reliable_engine_reliable : reliable reliable_engine.
Proof. intros journal e. reflexivity. Qed.

Lemma online_coherent : coherent online.
Proof.
  intros n col H. unfold online in H. simpl in H.
  apply lookup_insert_Some in H as [[<- <-]|[_ H]]; [reflexivity|].
  apply lookup_singleton_Some in H as [<- <-]. reflexivity.
Qed.

(** C1, at a batch of two records: [insert] returns normally and logs that
    2 records were inserted, but it issues a single insert, of the first
    record with its time stamp, and after the flush the collection holds
    this one row only. *)
Theorem insert_persists_first_record_only :
  ∃ w', insert reliable_engine "memories" [hello; bye] online = (Ok tt, w')
    ∧ call_event <$> calls w'
      = [ GetLoadState "memories";
          Insert "memories" (<["create_time" := PInt 1700000000]> hello);
          Flush "memories" ]
    ∧ rc_rows <$> remote w' !! "memories"
      = Some [ <["create_time" := PInt 1700000000]> hello ]
    ∧ rc_pending <$> remote w' !! "memories" = Some []
    ∧ last (logs w')
      = Some {| log_level := INFO; log_text := "插入数据成功：2 ." |}.
Proof.
  eexists. split; [vm_compute; reflexivity|].
  vm_compute. repeat split.
Qed.

(** C4, with the connection down: [delete], [drop_collection],
    [create_collection] and [get_latest_memory] do not call
    [_ensure_connection]; each issues its first remote call over the dead
    connection, never connects, and absorbs the failure, so that the row to
    delete is still there.  [insert] on the same client connects first. *)
Theorem delete_issues_call_while_disconnected :
  (∃ w', delete reliable_engine selects_all "memories" "id == 1" offline
         = (Ok tt, w')
     ∧ calls w' = [ {| call_up := false;
                       call_event := Delete "memories" "id == 1" |} ]
     ∧ has_connection w' = false
     ∧ remote w' = remote offline
     ∧ logs w' = [ {| log_level := ERROR;
                      log_text := "删除失败: should create connection first." |} ])
  ∧ calls (drop_collection reliable_engine "memories" offline).2
    = [ {| call_up := false; call_event := HasCollection "memories" |} ]
  ∧ calls (create_collection reliable_engine "diary" memories_definition offline).2
    = [ {| call_up := false; call_event := HasCollection "diary" |} ]
  ∧ calls (get_latest_memory reliable_engine durable_rows "memories" 3 offline).2
    = [ {| call_up := false; call_event := GetLoadState "memories" |} ]
  ∧ head (calls (insert reliable_engine "memories" [bye] offline).2)
    = Some {| call_up := false;
              call_event := Connect "default" "localhost" 19530 |}.
Proof.
  split; [eexists; split; [vm_compute; reflexivity|]|]; vm_compute; repeat split.
Qed.


(** ** The hypotheses of the theorems hold on the example data *)

(** On the connected client, "memories" resolves to its cached handle and
    "diary", which nobody knows, does not resolve. *)
Lemma get_collection_resolves_witness :
  (∃ col w', _get_collection reliable_engine "memories" online = (Ok col, w')
     ∧ collections w' !! "memories" = Some col ∧ col_name col = "memories")
  ∧ ∃ w', _get_collection reliable_engine "diary" online
          = (Raise (ValueError "Collection 'diary' does not exist."), w').
Proof.
  split.
  - pose proof (get_collection_resolves reliable_engine online "memories"
                  reliable_engine_reliable eq_refl online_coherent) as H.
    change (remote online !! "memories")
      with (Some (collection_of memories_schema "embedding" [])) in H.
    destruct H as (col & w' & E & Hcol & Hname & _). by exists col, w'.
  - pose proof (get_collection_resolves reliable_engine online "diary"
                  reliable_engine_reliable eq_refl online_coherent) as H.
    change (remote online !! "diary") with (@None RemoteCollection) in H.
    destruct (H eq_refl) as (w' & E & _). by exists w'.
Defined.

(** Creating "memories" again, with another schema, changes nothing. *)
Lemma create_collection_idempotent_witness :
  ∃ w', create_collection reliable_engine "memories" malformed_definition online
        = (Ok tt, w')
    ∧ remote w' = remote online.
Proof.
  destruct (create_collection_idempotent reliable_engine online "memories"
              malformed_definition) as (w' & E & _ & Hremote & _).
  - exists (collection_of memories_schema "embedding" []). reflexivity.
  - by exists w'.
Defined.

(** Creating "diary" from the example definition, which carries no index
    parameters, provisions the default index on "embedding". *)
Lemma create_collection_provisions_indexes_witness :
  ∃ w' c, create_collection reliable_engine "diary" memories_definition online
          = (Ok tt, w')
    ∧ remote w' !! "diary" = Some c
    ∧ rc_indexes c = [ {| index_field := "embedding";
                          index_params := default_index_params |} ].
Proof.
  destruct (create_collection_provisions_indexes reliable_engine online "diary"
              memories_definition
              (default [] (sd_fields memories_definition)))
    as (w' & c & E & Hc & Hi & _).
  - exact reliable_engine_reliable.
  - reflexivity.
  - reflexivity.
  - reflexivity.
  - reflexivity.
  - by exists w', c.
Defined.

(** Dropping the cached collection "memories": release, then drop. *)
Lemma drop_collection_releases_then_drops_witness :
  ∃ w', drop_collection reliable_engine "memories" online = (Ok tt, w')
    ∧ call_event <$> calls w'
      = [ HasCollection "memories"; Release "memories";
          DropCollection "memories" ]
    ∧ collections w' !! "memories" = None ∧ remote w' !! "memories" = None.
Proof.
  destruct (drop_collection_releases_then_drops reliable_engine online "memories"
              reliable_engine_reliable eq_refl online_coherent)
    as (w' & E & _ & H).
  change (remote online !! "memories")
    with (Some (collection_of memories_schema "embedding" [])) in H.
  destruct H as (Hcalls & _ & _ & Hcache & Hremote).
  exists w'. split; [done|]. split; [|done].
  rewrite Hcalls. reflexivity.
Defined.

(** "notes" has its vectors in a field named "vector": the search is issued
    on "embedding" and fails. *)
Lemma search_only_embedding_witness :
  calls (search reliable_engine no_hits "notes" [0; 0; 0; 1] 1 None online).2
  = issued [Load "notes";
            Search "notes" [[0; 0; 0; 1]] "embedding" search_params 1 None]
  ∧ (search_try reliable_engine no_hits "notes" [0; 0; 0; 1] 1 None online).1
    = Raise (MilvusException "no vector field named embedding")
  ∧ (search reliable_engine no_hits "notes" [0; 0; 0; 1] 1 None online).1 = Ok [].
Proof.
  destruct (search_only_embedding reliable_engine no_hits) as (_ & H & _).
  destruct (H online "notes" [0; 0; 0; 1] 1 None
              {| col_name := "notes"; col_schema := notes_schema |}
              (collection_of notes_schema "vector" [])
              reliable_engine_reliable eq_refl online_coherent eq_refl eq_refl)
    as (Hcalls & Hfail).
  destruct (Hfail eq_refl) as (Htry & Hres).
  split_and!; [exact Hcalls | exact Htry | exact Hres].
Defined.

(** The check of "memories" against the example definition. *)
Lemma check_schema_exact_witness :
  ∃ b w', check_collection_schema_consistency reliable_engine "memories"
            memories_definition online = (Ok b, w')
    ∧ (b = true
       ↔ schema_exactly (fields memories_schema)
           (default [] (sd_fields memories_definition))).
Proof.
  destruct (check_schema_exact reliable_engine online "memories"
              (collection_of memories_schema "embedding" [])
              memories_definition
              (default [] (sd_fields memories_definition)))
    as (b & w' & E & Hiff & _).
  - exact reliable_engine_reliable.
  - reflexivity.
  - discriminate.
  - simpl. compute_done.
  - reflexivity.
  - exists b, w'. split; [done|]. by apply Hiff.
Defined.

(** ** The further properties on the example data *)

Lemma connect_rebuilds_cache_witness :
  ∃ w', connect reliable_engine offline = (Ok tt, w') ∧ up w'
    ∧ is_loaded (remote w') "memories" = true.
Proof.
  destruct (connect_rebuilds_cache reliable_engine offline
              reliable_engine_reliable) as (w' & E & Hup & _ & Hrem & _).
  exists w'. split; [done|]. split; [done|].
  unfold is_loaded. rewrite Hrem. reflexivity.
Defined.

Lemma get_loaded_collections_by_attribute_witness :
  ∃ names w', get_loaded_collections reliable_engine load_state_name online
              = (Ok names, w')
    ∧ NoDup names ∧ remote w' = remote online.
Proof.
  destruct (get_loaded_collections_by_attribute reliable_engine load_state_name
              online reliable_engine_reliable) as [H _].
  destruct H as (names & w' & E & _ & Hnd & Hrem & _).
  - intros n c _. by eexists.
  - exists names, w'. split; [exact E|]. split; [exact Hnd | exact Hrem].
Defined.

Lemma operations_keep_cache_coherent_witness :
  coherent (connect reliable_engine online).2
  ∧ coherent (insert reliable_engine "blank" [hello] online).2
  ∧ coherent (drop_collection reliable_engine "memories" online).2.
Proof.
  destruct (operations_keep_cache_coherent reliable_engine durable_rows no_hits
              selects_all load_state_name online online_coherent)
    as (Hconnect & _ & _ & Hinsert & _ & _ & _ & _ & Hdrop & _).
  split_and!; [exact Hconnect | apply Hinsert | apply Hdrop].
Defined.

Lemma search_skips_malformed_hits_witness :
  ∃ w', search reliable_engine no_hits "memories" [0; 0; 0; 1] 1 None online
        = (Ok [], w')
    ∧ logs w' = [].
Proof.
  destruct (search_skips_malformed_hits reliable_engine no_hits online "memories"
              [0; 0; 0; 1] 1 None
              {| col_name := "memories"; col_schema := memories_schema |}
              (collection_of memories_schema "embedding" [])
              reliable_engine_reliable eq_refl online_coherent eq_refl eq_refl
              eq_refl) as (w' & E & _ & _ & Hlogs).
  exists w'. split; [exact E|].
  simpl in Hlogs. destruct (logs w'); [reflexivity | discriminate].
Defined.

Lemma get_latest_memory_resolves_lazily_witness :
  ∃ w', get_latest_memory reliable_engine durable_rows "blank" 3 online
        = (Ok [], w')
    ∧ is_Some (collections w' !! "blank").
Proof.
  pose proof (get_latest_memory_resolves_lazily reliable_engine durable_rows
                online "blank" 3 reliable_engine_reliable eq_refl online_coherent)
    as H.
  change (remote online !! "blank")
    with (Some (collection_of memories_schema "embedding" [])) in H.
  destruct H as (w' & E & Hcol & _). exists w'. split; [exact E|].
  rewrite Hcol. by eexists.
Defined.

Lemma create_collection_malformed_creates_nothing_witness :
  ∃ w', create_collection reliable_engine "diary" malformed_definition online
        = (Ok tt, w')
    ∧ remote w' = remote online ∧ collections w' = collections online.
Proof.
  destruct (create_collection_malformed_creates_nothing reliable_engine online
              "diary" malformed_definition eq_refl) as (w' & E & _ & Hrem & Hcol).
  by exists w'.
Defined.

Lemma get_collection_stale_handle_witness :
  ∃ w', _get_collection reliable_engine "memories" stale
        = (Raise (MilvusException "collection not found: memories"), w')
    ∧ collections w' = collections stale.
Proof.
  destruct (get_collection_stale_handle reliable_engine stale "memories"
              {| col_name := "memories"; col_schema := memories_schema |}
              reliable_engine_reliable eq_refl eq_refl eq_refl eq_refl)
    as (w' & E & _ & Hcol & _).
  by exists w'.
Defined.

Lemma delete_on_cached_handles_only_witness :
  ∃ w', delete reliable_engine selects_all "memories" "id == 1" online = (Ok tt, w')
    ∧ calls w' = issued [Delete "memories" "id == 1"].
Proof.
  pose proof (delete_on_cached_handles_only reliable_engine selects_all online
                "memories" "id == 1" reliable_engine_reliable eq_refl
                online_coherent) as H.
  change (collections online !! "memories")
    with (Some {| col_name := "memories"; col_schema := memories_schema |}) in H.
  destruct (H (collection_of memories_schema "embedding" []) eq_refl)
    as (w' & E & Hcalls & _).
  by exists w'.
Defined.

Lemma query_on_cached_handles_only_witness :
  (query reliable_engine durable_rows "blank" "id > 0" ["*"] online).1 = Ok [].
Proof.
  pose proof (query_on_cached_handles_only reliable_engine durable_rows online
                "blank" "id > 0" ["*"] reliable_engine_reliable eq_refl
                online_coherent) as H.
  change (collections online !! "blank") with (@None Collection) in H.
  by rewrite H.
Defined.

Lemma create_then_check_consistent_witness :
  ∃ w', create_collection reliable_engine "diary" memories_definition online
        = (Ok tt, w')
    ∧ (check_collection_schema_consistency reliable_engine "diary"
         memories_definition w').1 = Ok true.
Proof.
  apply (create_then_check_consistent reliable_engine online "diary"
           memories_definition (default [] (sd_fields memories_definition))).
  - exact reliable_engine_reliable.
  - reflexivity.
  - reflexivity.
  - reflexivity.
  - discriminate.
  - reflexivity.
  - simpl. compute_done.
Defined.

Lemma create_then_drop_restores_witness :
  ∃ w1 w2, create_collection reliable_engine "diary" memories_definition online
           = (Ok tt, w1)
    ∧ drop_collection reliable_engine "diary" w1 = (Ok tt, w2)
    ∧ remote w2 = remote online.
Proof.
  destruct (create_then_drop_restores reliable_engine online "diary"
              memories_definition (default [] (sd_fields memories_definition))
              reliable_engine_reliable eq_refl eq_refl eq_refl eq_refl)
    as (w1 & w2 & E1 & _ & _ & E2 & Hrem & _).
  by exists w1, w2.
Defined.


End MilvusDatabase.
